(** * Assert rewriting on GENERIC trees

    A shallow embedding of the GCC plugin snippets of
    [snippets/gcc-assert-introspect-2]: the assertion matcher, the traversal
    of a function body and the three successive versions of [patch_assert]
    ([basic_rewrite.c], [complex_rewrite.c] and the run-time version that
    builds conditional printing code), together with two evaluators for the
    fragment of GENERIC the snippets consume and emit: one in which user
    functions only compute values, and one with program state, in which an
    operand evaluated twice need not give the same value twice. *)

From Stdlib Require Import ZArith String Ascii List Bool Lia DecimalString.
Import ListNotations.

Set Warnings "-register-all".

Local Open Scope string_scope.
Local Open Scope Z_scope.

(* ================================================================= *)
(** ** GENERIC trees *)

Module Generic.

(** Tree codes, grouped by the shape of the node that carries them. *)
Inductive decl_code : Type :=
  | PARM_DECL | VAR_DECL | FUNCTION_DECL | FIELD_DECL.

Inductive unary_code : Type :=
  | NOP_EXPR | ADDR_EXPR | NEGATE_EXPR | TRUTH_NOT_EXPR.

Inductive binary_code : Type :=
  | EQ_EXPR | NE_EXPR | LT_EXPR | LE_EXPR | GT_EXPR | GE_EXPR
  | TRUTH_AND_EXPR | TRUTH_ANDIF_EXPR | TRUTH_OR_EXPR | TRUTH_ORIF_EXPR
  | PLUS_EXPR | MINUS_EXPR | MULT_EXPR | TRUNC_DIV_EXPR | TRUNC_MOD_EXPR
  | COMPONENT_REF.

Inductive tree_code : Type :=
  | DECL (c : decl_code)
  | UNARY (c : unary_code)
  | BINARY (c : binary_code)
  | INTEGER_CST | STRING_CST
  | COND_EXPR | CALL_EXPR | BIND_EXPR | STATEMENT_LIST.

Coercion DECL : decl_code >-> tree_code.
Coercion UNARY : unary_code >-> tree_code.
Coercion BINARY : binary_code >-> tree_code.

(** A [tree] node.  Operands are owned by their parent; the location, type
    and the BIND_EXPR's variables and block, none of which the snippets
    read or write, are left out. *)
Inductive tree : Type :=
  | Cst (z : Z)
  | Str (s : string)
  | Decl (c : decl_code) (name : string)
  | Unary (c : unary_code) (op0 : tree)
  | Binary (c : binary_code) (op0 op1 : tree)
  | Cond (ifexp op1 op2 : tree)
  | Call (fn : tree) (args : list tree)
  | Bind (body : tree)
  | StmtList (stmts : list tree).

Definition decl_code_eq_dec (a b : decl_code) : {a = b} + {a <> b}.
Proof. decide equality. Defined.

Definition unary_code_eq_dec (a b : unary_code) : {a = b} + {a <> b}.
Proof. decide equality. Defined.

Definition binary_code_eq_dec (a b : binary_code) : {a = b} + {a <> b}.
Proof. decide equality. Defined.

Definition tree_code_eq_dec (a b : tree_code) : {a = b} + {a <> b}.
Proof.
  decide equality;
    [apply decl_code_eq_dec | apply unary_code_eq_dec | apply binary_code_eq_dec].
Defined.

(** [TREE_CODE(a) == b] *)
Definition code_is (a b : tree_code) : bool :=
  if tree_code_eq_dec a b then true else false.

Definition TREE_CODE (t : tree) : tree_code :=
  match t with
  | Cst _ => INTEGER_CST
  | Str _ => STRING_CST
  | Decl c _ => DECL c
  | Unary c _ => UNARY c
  | Binary c _ _ => BINARY c
  | Cond _ _ _ => COND_EXPR
  | Call _ _ => CALL_EXPR
  | Bind _ => BIND_EXPR
  | StmtList _ => STATEMENT_LIST
  end.

(** [TREE_OPERAND(t, i)]; [None] where the node has no such operand (an
    invalid access in GCC). *)
Definition TREE_OPERAND (t : tree) (i : nat) : option tree :=
  match t, i with
  | Unary _ a, O => Some a
  | Binary _ a _, O => Some a
  | Binary _ _ b, S O => Some b
  | Cond c _ _, O => Some c
  | Cond _ a _, S O => Some a
  | Cond _ _ b, S (S O) => Some b
  | _, _ => None
  end.

Definition COND_EXPR_COND (t : tree) : option tree :=
  match t with Cond c _ _ => Some c | _ => None end.

Definition COND_EXPR_THEN (t : tree) : option tree :=
  match t with Cond _ a _ => Some a | _ => None end.

Definition COND_EXPR_ELSE (t : tree) : option tree :=
  match t with Cond _ _ b => Some b | _ => None end.

Definition CALL_EXPR_FN (t : tree) : option tree :=
  match t with Call fn _ => Some fn | _ => None end.

Definition BIND_EXPR_BODY (t : tree) : option tree :=
  match t with Bind b => Some b | _ => None end.

(** [COND_EXPR_ELSE(t) = new_else] *)
Definition set_COND_EXPR_ELSE (t new_else : tree) : option tree :=
  match t with Cond c a _ => Some (Cond c a new_else) | _ => None end.

(** [IDENTIFIER_POINTER(DECL_NAME(t))] *)
Definition DECL_NAME (t : tree) : option string :=
  match t with Decl _ n => Some n | _ => None end.

(** *** C library helpers used at transform time *)

Fixpoint strn_take (n : nat) (s : string) : string :=
  match n, s with
  | S n', String c s' => String c (strn_take n' s')
  | _, _ => EmptyString
  end.

(** [snprintf(buf, size, ...)] keeps at most [size - 1] characters of the
    text it is given. *)
Definition snprintf (size : nat) (text : string) : string :=
  strn_take (size - 1) text.

(** *** The part of GCC's tree API the snippets call *)

(** [build_string_literal(len, str)]: the address of a string constant
    holding the [len] bytes of [str], the last one being the terminator. *)
Definition build_string_literal (len : nat) (str : string) : tree :=
  Unary ADDR_EXPR (Str (strn_take (len - 1) str)).

Definition get_identifier (name : string) : string := name.

(** [lookup_name(id)] in a translation unit that declares [id] as a
    function, as [dummy.c] does for [printf] by including [stdio.h]. *)
Definition lookup_name (id : string) : tree := Decl FUNCTION_DECL id.

(** [build_call_expr_loc_vec], [build_call_expr_loc] and [build_call_expr]:
    a call through the address of the declaration. *)
Definition build_call_expr (fndecl : tree) (args : list tree) : tree :=
  Call (Unary ADDR_EXPR fndecl) args.

(** [vec_safe_push(v, obj)] and [vec_safe_insert(v, ix, obj)] on the
    argument vector. *)
Definition vec_safe_push (v : list tree) (obj : tree) : list tree := v ++ [obj].

Definition vec_safe_insert (v : list tree) (ix : nat) (obj : tree) : list tree :=
  firstn ix v ++ obj :: skipn ix v.

(** [sizeof] of a string literal: its length and the terminator. *)
Definition sizeof_literal (s : string) : nat := String.length s + 1.

(** [gcc_assert(b)]: an internal compiler error when [b] is false. *)
Definition gcc_assert (b : bool) : option unit :=
  if b then Some tt else None.

Definition alloc_stmt_list : tree := StmtList [].

(** [append_to_statement_list(t, &list)]: a statement list that is appended
    is spliced into the receiving list. *)
Definition append_to_statement_list (t list : tree) : tree :=
  match list, t with
  | StmtList l, StmtList l' => StmtList (l ++ l')
  | StmtList l, _ => StmtList (l ++ [t])
  | _, StmtList l' => StmtList (list :: l')
  | _, _ => StmtList [list; t]
  end.

(** [build_empty_stmt]: the statement [(void)0]. *)
Definition build_empty_stmt : tree := Unary NOP_EXPR (Cst 0).

End Generic.
Export Generic.

(* ================================================================= *)
(** ** Evaluation of the generated code *)

Module Semantics.

(** What running a tree does that can be observed: calls of user functions
    and text written by [printf].  A user function is given by the value it
    returns for its arguments, and each time it is entered is an event: an
    expression evaluated twice yields the same value twice, and the second
    evaluation shows in the trace. *)
Inductive event : Type :=
  | EvCall (f : string) (args : list Z)
  | EvOut (s : string).

Definition trace : Type := list event.

(** A computation yields a value and the events it produced, or is
    undefined. *)
Definition comp (A : Type) : Type := option (A * trace).

Definition ret {A : Type} (a : A) : comp A := Some (a, []).

Definition bind {A B : Type} (m : comp A) (k : A -> comp B) : comp B :=
  match m with
  | None => None
  | Some (a, t1) =>
      match k a with
      | None => None
      | Some (b, t2) => Some (b, (t1 ++ t2)%list)
      end
  end.

Definition lift {A : Type} (o : option A) : comp A :=
  match o with Some a => ret a | None => None end.

Definition emit (e : event) : comp unit := Some (tt, [e]).

Notation "x <- m ;; k" := (bind m (fun x => k))
  (at level 61, m at next level, right associativity).

(** [int] arithmetic wraps around at 32 bits. *)
Definition wrap (z : Z) : Z := (z + 2 ^ 31) mod 2 ^ 32 - 2 ^ 31.

Definition truth (b : bool) : Z := if b then 1 else 0.

Definition binop (c : binary_code) (x y : Z) : option Z :=
  match c with
  | EQ_EXPR => Some (truth (x =? y))
  | NE_EXPR => Some (truth (negb (x =? y)))
  | LT_EXPR => Some (truth (x <? y))
  | LE_EXPR => Some (truth (x <=? y))
  | GT_EXPR => Some (truth (x >? y))
  | GE_EXPR => Some (truth (x >=? y))
  | TRUTH_AND_EXPR | TRUTH_ANDIF_EXPR =>
      Some (truth (negb (x =? 0) && negb (y =? 0)))
  | TRUTH_OR_EXPR | TRUTH_ORIF_EXPR =>
      Some (truth (negb (x =? 0) || negb (y =? 0)))
  | PLUS_EXPR => Some (wrap (x + y))
  | MINUS_EXPR => Some (wrap (x - y))
  | MULT_EXPR => Some (wrap (x * y))
  | TRUNC_DIV_EXPR => if y =? 0 then None else Some (wrap (Z.quot x y))
  | TRUNC_MOD_EXPR => if y =? 0 then None else Some (wrap (Z.rem x y))
  | COMPONENT_REF => None
  end.

Definition string_of_Z (z : Z) : string :=
  NilZero.string_of_int (Z.to_int z).

(** [printf] restricted to literal text, [%d] and [%%]. *)
Fixpoint format_printf (fmt : string) (args : list Z) : option string :=
  match fmt with
  | EmptyString => Some EmptyString
  | String "%" (String "d" rest) =>
      match args with
      | v :: args' => option_map (append (string_of_Z v)) (format_printf rest args')
      | [] => None
      end
  | String "%" (String "%" rest) =>
      option_map (String "%") (format_printf rest args)
  | String "%" _ => None
  | String c rest => option_map (String c) (format_printf rest args)
  end.

Section Eval.

(** Values of the parameters and variables, and the user functions in
    scope. *)
Variable venv : string -> option Z.
Variable fenv : string -> option (list Z -> Z).

Fixpoint eval (t : tree) : comp Z :=
  match t with
  | Cst z => ret z
  | Str _ => None
  | Decl PARM_DECL x | Decl VAR_DECL x => lift (venv x)
  | Decl _ _ => None
  | Unary NOP_EXPR a => eval a
  | Unary NEGATE_EXPR a => x <- eval a ;; ret (wrap (- x))
  | Unary TRUTH_NOT_EXPR a => x <- eval a ;; ret (truth (x =? 0))
  | Unary ADDR_EXPR _ => None
  | Binary TRUTH_ANDIF_EXPR a b =>
      x <- eval a ;;
      if x =? 0 then ret 0
      else y <- eval b ;; ret (truth (negb (y =? 0)))
  | Binary TRUTH_ORIF_EXPR a b =>
      x <- eval a ;;
      if x =? 0 then y <- eval b ;; ret (truth (negb (y =? 0)))
      else ret 1
  | Binary c a b => x <- eval a ;; y <- eval b ;; lift (binop c x y)
  | Cond c a b => x <- eval c ;; if x =? 0 then eval b else eval a
  | Call fn args =>
      let evals :=
        fix evals (l : list tree) : comp (list Z) :=
          match l with
          | [] => ret []
          | a :: l' => v <- eval a ;; vs <- evals l' ;; ret (v :: vs)
          end in
      match fn with
      | Unary ADDR_EXPR (Decl FUNCTION_DECL f) =>
          if String.eqb f "printf" then
            match args with
            | Unary ADDR_EXPR (Str fmt) :: rest =>
                vs <- evals rest ;;
                s <- lift (format_printf fmt vs) ;;
                _ <- emit (EvOut s) ;;
                ret (Z.of_nat (String.length s))
            | _ => None
            end
          else
            vs <- evals args ;;
            g <- lift (fenv f) ;;
            _ <- emit (EvCall f vs) ;;
            ret (g vs)
      | _ => None
      end
  | Bind body => eval body
  | StmtList l =>
      (fix run (l : list tree) : comp Z :=
         match l with
         | [] => ret 0
         | s :: l' => _ <- eval s ;; run l'
         end) l
  end.

Fixpoint eval_stmts (l : list tree) : comp Z :=
  match l with
  | [] => ret 0
  | s :: l' => _ <- eval s ;; eval_stmts l'
  end.

(** Events of a run. *)
Definition run (t : tree) : option trace := option_map snd (eval t).

End Eval.

(** The text written to standard output. *)
Fixpoint stdout (tr : trace) : string :=
  match tr with
  | [] => EmptyString
  | EvOut s :: tr' => s ++ stdout tr'
  | EvCall _ _ :: tr' => stdout tr'
  end.

(** How many times the function [f] was entered. *)
Fixpoint count_calls (f : string) (tr : trace) : nat :=
  match tr with
  | [] => O
  | EvCall g _ :: tr' =>
      if String.eqb f g then S (count_calls f tr') else count_calls f tr'
  | EvOut _ :: tr' => count_calls f tr'
  end.

End Semantics.
Export Semantics.

(* ================================================================= *)
(** ** What the three snippets share: operator table, matcher, traversal *)

Module Matcher.

(** The text of the operation of [expr], for the operators of the table. *)
Definition get_expr_op_repr (expr : tree) : option string :=
  match TREE_CODE expr with
  | BINARY EQ_EXPR => Some "=="
  | BINARY NE_EXPR => Some "!="
  | BINARY TRUTH_AND_EXPR
  | BINARY TRUTH_ANDIF_EXPR => Some "&&"
  | BINARY TRUTH_OR_EXPR
  | BINARY TRUTH_ORIF_EXPR => Some "||"
  | BINARY PLUS_EXPR => Some "+"
  | BINARY MINUS_EXPR => Some "-"
  | BINARY MULT_EXPR => Some "*"
  | BINARY TRUNC_DIV_EXPR => Some "/"
  | _ => None
  end.

Definition is_assert_fail_cond_expr (expr : tree) : bool :=
  if negb (code_is (TREE_CODE expr) COND_EXPR) then false
  else
    match COND_EXPR_THEN expr, COND_EXPR_ELSE expr with
    | Some expr_then, Some expr_else =>
        code_is (TREE_CODE expr_then) NOP_EXPR &&
        code_is (TREE_CODE expr_else) CALL_EXPR &&
        match CALL_EXPR_FN expr_else with
        | Some fn =>
            code_is (TREE_CODE fn) ADDR_EXPR &&
            match TREE_OPERAND fn 0 with
            | Some decl =>
                code_is (TREE_CODE decl) FUNCTION_DECL &&
                match DECL_NAME decl with
                | Some name => String.eqb "__assert_fail" name
                | None => false
                end
            | None => false
            end
        | None => false
        end
    | _, _ => false
    end.

Section Traversal.

(** The three snippets differ in [patch_assert] only. *)
Variable patch_assert : tree -> option tree.

(** The tree is patched in place in the source; here the patched tree is
    returned, and [None] stands for a failed [gcc_assert] or an invalid
    operand access. *)
Fixpoint iterate_function_body (expr : tree) : option tree :=
  let loop :=
    fix loop (l : list tree) : option (list tree) :=
      match l with
      | [] => Some []
      | stmt :: rest =>
          match (if code_is (TREE_CODE stmt) BIND_EXPR
                 then iterate_function_body stmt
                 else Some stmt) with
          | Some stmt' => option_map (cons stmt') (loop rest)
          | None => None
          end
      end in
  match expr with
  | Bind body =>
      match body with
      | StmtList l => option_map (fun l' => Bind (StmtList l')) (loop l)
      | _ =>
          if is_assert_fail_cond_expr body then
            match gcc_assert (code_is (TREE_CODE expr) BIND_EXPR),
                  gcc_assert (code_is (TREE_CODE body) COND_EXPR) with
            | Some _, Some _ => option_map Bind (patch_assert body)
            | _, _ => None
            end
          else Some expr
      end
  | StmtList l => option_map StmtList (loop l)
  | _ => None
  end.

(** The loop over the statements of a list. *)
Fixpoint iterate_stmts (l : list tree) : option (list tree) :=
  match l with
  | [] => Some []
  | stmt :: rest =>
      match (if code_is (TREE_CODE stmt) BIND_EXPR
             then iterate_function_body stmt
             else Some stmt) with
      | Some stmt' => option_map (cons stmt') (iterate_stmts rest)
      | None => None
      end
  end.

End Traversal.

End Matcher.
Export Matcher.

(* ================================================================= *)
(** ** basic_rewrite.c *)

Module BasicRewrite.

Definition newline : string := String (ascii_of_nat 10) EmptyString.

Definition patch_assert (cond_expr : tree) : option tree :=
  match COND_EXPR_COND cond_expr with
  | Some cond =>
      match TREE_OPERAND cond 0, TREE_OPERAND cond 1 with
      | Some left_, Some right_ =>
          let fmt :=
            build_string_literal (sizeof_literal ("%d == %d" ++ newline))
                                 ("%d == %d" ++ newline) in
          let call :=
            build_call_expr (lookup_name (get_identifier "printf"))
                            [fmt; left_; right_] in
          (* embed it in the expression: replace the __assert_fail() call *)
          set_COND_EXPR_ELSE cond_expr call
      | _, _ => None
      end
  | None => None
  end.

Definition iterate_function_body : tree -> option tree :=
  Matcher.iterate_function_body patch_assert.

End BasicRewrite.

(* ================================================================= *)
(** ** complex_rewrite.c: one [printf] of every leaf *)

Module ComplexRewrite.

(** Returns the format of [expr] and the argument vector with the leaves of
    [expr] pushed on it; [buf] has 1024 bytes. *)
Fixpoint create_expression_repr (expr : tree) (args : list tree)
  : string * list tree :=
  match get_expr_op_repr expr, expr with
  | Some op, Binary _ op0 op1 =>
      let (left_, args) := create_expression_repr op0 args in
      let (right_, args) := create_expression_repr op1 args in
      (snprintf 1024 ("(" ++ left_ ++ ") " ++ op ++ " (" ++ right_ ++ ")"), args)
  | _, _ => ("%d", vec_safe_push args expr)
  end.

Definition patch_assert (cond_expr : tree) : option tree :=
  match COND_EXPR_COND cond_expr with
  | Some cond =>
      let v := [] in
      let (fmt, v) := create_expression_repr cond v in
      (* format comes first *)
      let v :=
        vec_safe_insert v 0 (build_string_literal (String.length fmt + 1) fmt) in
      let call := build_call_expr (lookup_name (get_identifier "printf")) v in
      set_COND_EXPR_ELSE cond_expr call
  | None => None
  end.

Definition iterate_function_body : tree -> option tree :=
  Matcher.iterate_function_body patch_assert.

End ComplexRewrite.

(* ================================================================= *)
(** ** The run-time version: printing code that follows the short circuits *)

Module RuntimeRewrite.

(** The C front end's [build_conditional_expr] on void branches: the
    COND_EXPR itself, both GCC versions of the wrapper alike. *)
Definition _build_conditional_expr (ifexp op1 op2 : tree) : tree :=
  Cond ifexp op1 op2.

Section WithPrintf.

(** The static [printf_decl], set by [patch_assert] before the walk. *)
Variable printf_decl : tree.

Definition make_printf (format : string) (args : option (list tree)) : tree :=
  let fmt := build_string_literal (String.length format + 1) format in
  match args with
  | Some args => build_call_expr printf_decl (vec_safe_insert args 0 fmt)
  | None => build_call_expr printf_decl [fmt]
  end.

Fixpoint make_conditional_expr_repr (expr : tree) : tree :=
  let code := TREE_CODE expr in
  match expr with
  | Binary _ op0 op1 =>
      if code_is code TRUTH_ANDIF_EXPR || code_is code TRUTH_AND_EXPR then
        let stmts := alloc_stmt_list in
        let stmts :=
          append_to_statement_list (make_conditional_expr_repr op0) stmts in
        let left_stmts := stmts in
        let stmts := alloc_stmt_list in
        let stmts := append_to_statement_list (make_printf "(...) && (" None) stmts in
        let stmts :=
          append_to_statement_list (make_conditional_expr_repr op1) stmts in
        let stmts := append_to_statement_list (make_printf ")" None) stmts in
        let right_stmts := stmts in
        _build_conditional_expr op0 right_stmts left_stmts
      else if code_is code TRUTH_ORIF_EXPR || code_is code TRUTH_OR_EXPR then
        let stmts := alloc_stmt_list in
        let stmts := append_to_statement_list (make_printf "(" None) stmts in
        let stmts :=
          append_to_statement_list (make_conditional_expr_repr op0) stmts in
        let stmts := append_to_statement_list (make_printf ") || (" None) stmts in
        let stmts :=
          append_to_statement_list (make_conditional_expr_repr op1) stmts in
        let stmts := append_to_statement_list (make_printf ")" None) stmts in
        _build_conditional_expr expr build_empty_stmt stmts
      else
        let stmts := alloc_stmt_list in
        match get_expr_op_repr expr with
        | Some op =>
            let format := snprintf 64 (" " ++ op ++ " ") in
            let stmts :=
              append_to_statement_list (make_conditional_expr_repr op0) stmts in
            let stmts := append_to_statement_list (make_printf format None) stmts in
            append_to_statement_list (make_conditional_expr_repr op1) stmts
        | None =>
            append_to_statement_list (make_printf "%d" (Some [expr])) stmts
        end
  | _ =>
      (* neither a logical operator nor in the operator table *)
      let stmts := alloc_stmt_list in
      append_to_statement_list (make_printf "%d" (Some [expr])) stmts
  end.

End WithPrintf.

Definition patch_assert (cond_expr : tree) : option tree :=
  let printf_decl := lookup_name (get_identifier "printf") in
  match COND_EXPR_COND cond_expr with
  | Some cond =>
      set_COND_EXPR_ELSE cond_expr (make_conditional_expr_repr printf_decl cond)
  | None => None
  end.

Definition iterate_function_body : tree -> option tree :=
  Matcher.iterate_function_body patch_assert.

End RuntimeRewrite.

(* ================================================================= *)
(** ** The programs of the post, as trees *)

Module Examples.

Definition var (x : string) : tree := Decl PARM_DECL x.

Definition call_fn (f : string) (args : list tree) : tree :=
  Call (Unary ADDR_EXPR (Decl FUNCTION_DECL f)) args.

(** What [assert(c)] expands to: [if (c) (void)0; else __assert_fail(...)]
    inside the block of a statement expression. *)
Definition assert_fail_call : tree :=
  call_fn "__assert_fail" [Unary ADDR_EXPR (Str "expr"); Unary ADDR_EXPR (Str "dummy.c");
                           Cst 4; Unary ADDR_EXPR (Str "test")].

Definition assert_stmt (c : tree) : tree :=
  Bind (Cond c build_empty_stmt assert_fail_call).

(** [x == 1 && y == 2] and [x == 1 || y == 2] *)
Definition x_and_y : tree :=
  Binary TRUTH_ANDIF_EXPR (Binary EQ_EXPR (var "x") (Cst 1))
                          (Binary EQ_EXPR (var "y") (Cst 2)).

Definition x_or_y : tree :=
  Binary TRUTH_ORIF_EXPR (Binary EQ_EXPR (var "x") (Cst 1))
                         (Binary EQ_EXPR (var "y") (Cst 2)).

(** [call(n) % 2 == 0 && n - 100 == 150] *)
Definition call_cond : tree :=
  Binary TRUTH_ANDIF_EXPR
    (Binary EQ_EXPR (Binary TRUNC_MOD_EXPR (call_fn "call" [var "n"]) (Cst 2)) (Cst 0))
    (Binary EQ_EXPR (Binary MINUS_EXPR (var "n") (Cst 100)) (Cst 150)).

(** Environments binding the named variables. *)
Definition env_of (l : list (string * Z)) (x : string) : option Z :=
  option_map snd (find (fun p => String.eqb (fst p) x) l).

Definition no_functions (f : string) : option (list Z -> Z) := None.

(** [if (c) (void)0; else abort();] in a block of its own: not an
    assertion. *)
Definition abort_stmt (c : tree) : tree :=
  Bind (Cond c build_empty_stmt (call_fn "abort" [])).

(** The only user function is [call], computing [g] of its first argument. *)
Definition only_call (g : Z -> Z) (f : string) : option (list Z -> Z) :=
  if String.eqb f "call"
  then Some (fun vs => match vs with v :: _ => g v | [] => 0 end)
  else None.

End Examples.
Import Examples.

(* ================================================================= *)
(** ** Notions used to state the properties *)

Local Open Scope list_scope.

Module Properties.

(** Sequencing of two runs. *)
Definition then_ (a b : option trace) : option trace :=
  match a, b with
  | Some x, Some y => Some (x ++ y)
  | _, _ => None
  end.

(** The run that only writes [s]. *)
Definition writes (s : string) : option trace := Some [EvOut s].

(** The declaration [patch_assert] stores in [printf_decl]. *)
Definition the_printf : tree := lookup_name (get_identifier "printf").

(** The printing code the run-time version generates for a condition. *)
Definition diag (expr : tree) : tree :=
  RuntimeRewrite.make_conditional_expr_repr the_printf expr.

(** The whole assertion after each rewrite. *)
Definition runtime_assert (c : tree) : option tree :=
  RuntimeRewrite.patch_assert (Cond c build_empty_stmt assert_fail_call).

Definition complex_assert (c : tree) : option tree :=
  ComplexRewrite.patch_assert (Cond c build_empty_stmt assert_fail_call).

Definition run_opt venv fenv (o : option tree) : option trace :=
  match o with Some t => run venv fenv t | None => None end.

(** What a rewritten assertion prints, and how often it enters [f]. *)
Definition printed venv fenv (o : option tree) : option string :=
  option_map stdout (run_opt venv fenv o).

Definition calls_of (f : string) venv fenv (o : option tree) : option nat :=
  option_map (count_calls f) (run_opt venv fenv o).

(** The statements a tree contributes when appended to a list. *)
Definition stmts_of (t : tree) : list tree :=
  match t with StmtList l => l | _ => [t] end.

(** The glyph of a binary code in the operator table. *)
Definition glyph (c : binary_code) : option string :=
  get_expr_op_repr (Binary c (Cst 0) (Cst 0)).

Definition is_and (c : binary_code) : bool :=
  match c with TRUTH_ANDIF_EXPR | TRUTH_AND_EXPR => true | _ => false end.

Definition is_or (c : binary_code) : bool :=
  match c with TRUTH_ORIF_EXPR | TRUTH_OR_EXPR => true | _ => false end.

(** [p != 0 && 10 % p == 5], whose right operand is undefined when
    [p = 0]. *)
Definition guarded_rem : tree :=
  Binary TRUTH_ANDIF_EXPR
    (Binary NE_EXPR (var "p") (Cst 0))
    (Binary EQ_EXPR (Binary TRUNC_MOD_EXPR (Cst 10) (var "p")) (Cst 5)).

(** The leaf expressions of a condition, from left to right: what is
    neither a logical operator nor in the operator table. *)
Fixpoint leaves (e : tree) : list tree :=
  match get_expr_op_repr e, e with
  | Some _, Binary _ l r => leaves l ++ leaves r
  | _, _ => [e]
  end.

(** The format of a condition when no buffer bounds it. *)
Fixpoint full_repr (e : tree) : string :=
  match get_expr_op_repr e, e with
  | Some op, Binary _ l r =>
      ("(" ++ full_repr l ++ ") " ++ op ++ " (" ++ full_repr r ++ ")")%string
  | _, _ => "%d"
  end.

(** The number of [%d] conversions of a format. *)
Fixpoint count_placeholders (fmt : string) : nat :=
  match fmt with
  | EmptyString => 0
  | String "%" (String "d" rest) => S (count_placeholders rest)
  | String "%" (String "%" rest) => count_placeholders rest
  | String _ rest => count_placeholders rest
  end.

(** The format and the arguments of the [printf] the one-printf rewrite
    generates. *)
Definition complex_format (c : tree) : string :=
  fst (ComplexRewrite.create_expression_repr c []).

Definition complex_args (c : tree) : list tree :=
  snd (ComplexRewrite.create_expression_repr c []).

(** [a + a + ... + a] with [n] additions. *)
Fixpoint sum_chain (n : nat) : tree :=
  match n with
  | O => var "a"
  | S n' => Binary PLUS_EXPR (sum_chain n') (var "a")
  end.

(** The text of a condition in which every operand of an operator of the
    table stands in parentheses, the leaves being replaced, in order, by
    the values [vals]; the values left over are returned. *)
Fixpoint paren_text (e : tree) (vals : list Z) : option (string * list Z) :=
  match get_expr_op_repr e, e with
  | Some op, Binary _ l r =>
      match paren_text l vals with
      | Some (L, vals1) =>
          match paren_text r vals1 with
          | Some (R, vals2) =>
              Some (("(" ++ L ++ ") " ++ op ++ " (" ++ R ++ ")")%string, vals2)
          | None => None
          end
      | None => None
      end
  | _, _ =>
      match vals with
      | v :: rest => Some (string_of_Z v, rest)
      | [] => None
      end
  end.

(** What the printing code of the run-time rewrite writes for [e]. *)
Definition runtime_render venv fenv (e : tree) : option string :=
  option_map stdout (run venv fenv (diag e)).

(** What the [printf] call of the one-printf rewrite writes for [e]. *)
Definition complex_render venv fenv (e : tree) : option string :=
  option_map stdout
    (run venv fenv
       (build_call_expr the_printf
          (Unary ADDR_EXPR (Str (complex_format e)) :: complex_args e))).

(** A rendering wraps the operands of [Binary c l r]: its text for the
    node is the texts for the operands, each in parentheses, around the
    glyph. *)
Definition wraps_operands (render : tree -> option string)
           (c : binary_code) (l r : tree) : Prop :=
  exists op L R,
    glyph c = Some op /\ render l = Some L /\ render r = Some R /\
    render (Binary c l r) = Some ("(" ++ L ++ ") " ++ op ++ " (" ++ R ++ ")")%string.

(** [only_failure_branches_differ t t']: the tree [t'] is [t] except for
    the failure branch of conditionals that match
    [is_assert_fail_cond_expr] and are the body of a bind block. *)
Inductive only_failure_branches_differ : tree -> tree -> Prop :=
  | ofb_same (t : tree) : only_failure_branches_differ t t
  | ofb_patched (c t e e' : tree) :
      is_assert_fail_cond_expr (Cond c t e) = true ->
      only_failure_branches_differ (Bind (Cond c t e)) (Bind (Cond c t e'))
  | ofb_bind (l l' : list tree) :
      Forall2 only_failure_branches_differ l l' ->
      only_failure_branches_differ (Bind (StmtList l)) (Bind (StmtList l'))
  | ofb_list (l l' : list tree) :
      Forall2 only_failure_branches_differ l l' ->
      only_failure_branches_differ (StmtList l) (StmtList l').

(** A conditional of the shape of an assertion. *)
Definition assert_shaped (s : tree) : Prop :=
  exists c t args,
    s = Cond c (Unary NOP_EXPR t)
             (Call (Unary ADDR_EXPR (Decl FUNCTION_DECL "__assert_fail")) args).

(** Induction on trees that reaches the arguments of calls and the
    statements of lists. *)
Section TreeInduction.

Variable P : tree -> Prop.
Hypothesis HCst : forall z, P (Cst z).
Hypothesis HStr : forall s, P (Str s).
Hypothesis HDecl : forall c name, P (Decl c name).
Hypothesis HUnary : forall c a, P a -> P (Unary c a).
Hypothesis HBinary : forall c a b, P a -> P b -> P (Binary c a b).
Hypothesis HCond : forall c a b, P c -> P a -> P b -> P (Cond c a b).
Hypothesis HCall : forall fn args, P fn -> Forall P args -> P (Call fn args).
Hypothesis HBind : forall body, P body -> P (Bind body).
Hypothesis HStmtList : forall l, Forall P l -> P (StmtList l).

Fixpoint tree_nested_ind (t : tree) : P t :=
  let all :=
    fix all (l : list tree) : Forall P l :=
      match l with
      | [] => Forall_nil P
      | x :: l' => Forall_cons x (tree_nested_ind x) (all l')
      end in
  match t with
  | Cst z => HCst z
  | Str s => HStr s
  | Decl c name => HDecl c name
  | Unary c a => HUnary c a (tree_nested_ind a)
  | Binary c a b => HBinary c a b (tree_nested_ind a) (tree_nested_ind b)
  | Cond c a b =>
      HCond c a b (tree_nested_ind c) (tree_nested_ind a) (tree_nested_ind b)
  | Call fn args => HCall fn args (tree_nested_ind fn) (all args)
  | Bind body => HBind body (tree_nested_ind body)
  | StmtList l => HStmtList l (all l)
  end.

End TreeInduction.

End Properties.
Import Properties.

(* ================================================================= *)
(** ** The callback of the plugin and further notions *)

Module Plugin.

(** [pre_genericize_callback(event_data, user_data)], the same in the three
    rewrites.  [saved_tree] is [DECL_SAVED_TREE(t)], which the traversal
    patches in place; the result is the saved tree after the callback, and
    [None] an internal error of the traversal. *)
Definition pre_genericize_callback (patch_assert : tree -> option tree)
           (t saved_tree : tree) : option tree :=
  if code_is (TREE_CODE t) FUNCTION_DECL
  then Matcher.iterate_function_body patch_assert saved_tree
  else Some saved_tree.

End Plugin.

Module Notions.

Section EvalList.

Variable venv : string -> option Z.
Variable fenv : string -> option (list Z -> Z).

(** The arguments of a call, evaluated from left to right. *)
Fixpoint eval_list (l : list tree) : comp (list Z) :=
  match l with
  | [] => ret []
  | a :: l' =>
      v <- eval venv fenv a ;; vs <- eval_list l' ;; ret (v :: vs)
  end.

End EvalList.

(** Two conditions with the same skeleton of operators of the table: the
    glyphs agree node by node, the leaves are arbitrary. *)
Inductive same_shape : tree -> tree -> Prop :=
  | ss_leaf (e e' : tree) :
      get_expr_op_repr e = None -> get_expr_op_repr e' = None ->
      same_shape e e'
  | ss_binary (c c' : binary_code) (op : string) (l l' r r' : tree) :
      glyph c = Some op -> glyph c' = Some op ->
      same_shape l l' -> same_shape r r' ->
      same_shape (Binary c l r) (Binary c' l' r').

(** [((e0 && e1) && e2) && ...], as the parser nests a chain of [&&]. *)
Definition and_chain (e0 : tree) (rest : list tree) : tree :=
  fold_left (fun acc e => Binary TRUTH_ANDIF_EXPR acc e) rest e0.

(** The failure branch each rewrite puts in place of the call of
    [__assert_fail]. *)
Definition complex_failure_branch (c : tree) : tree :=
  build_call_expr the_printf
    (Unary ADDR_EXPR (Str (complex_format c)) :: complex_args c).

Definition basic_failure_branch (l r : tree) : tree :=
  build_call_expr the_printf
    [Unary ADDR_EXPR (Str ("%d == %d" ++ BasicRewrite.newline)%string); l; r].

(** [contains sub s]: the text [sub] occurs in [s]. *)
Fixpoint contains (sub s : string) : bool :=
  String.prefix sub s ||
  match s with
  | EmptyString => false
  | String _ s' => contains sub s'
  end.

End Notions.
Import Notions.

(* ================================================================= *)
(** ** Evaluation with program state *)

(** The generated code contains the operands of the condition a second
    time.  What a second evaluation yields depends on what the first one
    did: here user functions read and change a program state, variables
    are read from it, the address of a string literal is a value that can
    be passed to a function, and the order in which the arguments of a call
    are evaluated is a parameter.  The operands of an operator are
    evaluated first to second, as the gimplifier does.  The evaluator of
    [Semantics] is the case of functions without effect and of arguments
    evaluated from left to right. *)
Module Machine.

(** C leaves the order in which the arguments of a call are evaluated to
    the compiler. *)
Inductive arg_order : Type := LeftToRight | RightToLeft.

(** What a program runs in: the values of its variables in a state, its
    user functions, which receive the values of their arguments and the
    state and return a value and a new state, the addresses of its string
    literals, and the order its compiler chose for arguments. *)
Record machine (state : Type) : Type := {
  venv : state -> string -> option Z;
  fenv : string -> option (list Z -> state -> Z * state);
  str_addr : string -> Z;
  order : arg_order
}.

Arguments venv {state}.
Arguments fenv {state}.
Arguments str_addr {state}.
Arguments order {state}.

Section Eval.

Variable state : Type.
Variable m : machine state.

(** A computation yields a value, the state it leaves and the events it
    produced, or is undefined. *)
Definition comp (A : Type) : Type := state -> option (A * state * trace).

Definition ret {A : Type} (a : A) : comp A := fun st => Some (a, st, []).

Definition bind {A B : Type} (c : comp A) (k : A -> comp B) : comp B :=
  fun st =>
    match c st with
    | None => None
    | Some (a, st1, t1) =>
        match k a st1 with
        | None => None
        | Some (b, st2, t2) => Some (b, st2, t1 ++ t2)
        end
    end.

Definition fail {A : Type} : comp A := fun _ => None.

Definition lift {A : Type} (o : option A) : comp A :=
  fun st => match o with Some a => Some (a, st, []) | None => None end.

Definition emit (e : event) : comp unit := fun st => Some (tt, st, [e]).

Definition read (x : string) : comp Z :=
  fun st => match venv m st x with Some z => Some (z, st, []) | None => None end.

Definition enter (g : list Z -> state -> Z * state) (vs : list Z) : comp Z :=
  fun st => let (z, st') := g vs st in Some (z, st', []).

Notation "x <~ c ;; k" := (bind c (fun x => k))
  (at level 61, c at next level, right associativity).

Fixpoint eval (t : tree) : comp Z :=
  match t with
  | Cst z => ret z
  | Str _ => fail
  | Decl PARM_DECL x | Decl VAR_DECL x => read x
  | Decl _ _ => fail
  | Unary NOP_EXPR a => eval a
  | Unary NEGATE_EXPR a => x <~ eval a ;; ret (wrap (- x))
  | Unary TRUTH_NOT_EXPR a => x <~ eval a ;; ret (truth (x =? 0))
  | Unary ADDR_EXPR a =>
      match a with
      | Str s => ret (str_addr m s)
      | _ => fail
      end
  | Binary TRUTH_ANDIF_EXPR a b =>
      x <~ eval a ;;
      if x =? 0 then ret 0
      else y <~ eval b ;; ret (truth (negb (y =? 0)))
  | Binary TRUTH_ORIF_EXPR a b =>
      x <~ eval a ;;
      if x =? 0 then y <~ eval b ;; ret (truth (negb (y =? 0)))
      else ret 1
  | Binary c a b => x <~ eval a ;; y <~ eval b ;; lift (binop c x y)
  | Cond c a b => x <~ eval c ;; if x =? 0 then eval b else eval a
  | Call fn args =>
      let evals :=
        fix evals (l : list tree) : comp (list Z) :=
          match l with
          | [] => ret []
          | a :: l' =>
              match order m with
              | LeftToRight => v <~ eval a ;; vs <~ evals l' ;; ret (v :: vs)
              | RightToLeft => vs <~ evals l' ;; v <~ eval a ;; ret (v :: vs)
              end
          end in
      match fn with
      | Unary ADDR_EXPR (Decl FUNCTION_DECL f) =>
          if String.eqb f "printf" then
            match args with
            | Unary ADDR_EXPR (Str fmt) :: rest =>
                vs <~ evals rest ;;
                s <~ lift (format_printf fmt vs) ;;
                _ <~ emit (EvOut s) ;;
                ret (Z.of_nat (String.length s))
            | _ => fail
            end
          else
            vs <~ evals args ;;
            g <~ lift (fenv m f) ;;
            _ <~ emit (EvCall f vs) ;;
            enter g vs
      | _ => fail
      end
  | Bind body => eval body
  | StmtList l =>
      (fix run (l : list tree) : comp Z :=
         match l with
         | [] => ret 0
         | s :: l' => _ <~ eval s ;; run l'
         end) l
  end.

(** The arguments of a call, in the order of the compiler. *)
Fixpoint eval_args (l : list tree) : comp (list Z) :=
  match l with
  | [] => ret []
  | a :: l' =>
      match order m with
      | LeftToRight => v <~ eval a ;; vs <~ eval_args l' ;; ret (v :: vs)
      | RightToLeft => vs <~ eval_args l' ;; v <~ eval a ;; ret (v :: vs)
      end
  end.

Fixpoint eval_stmts (l : list tree) : comp Z :=
  match l with
  | [] => ret 0
  | s :: l' => _ <~ eval s ;; eval_stmts l'
  end.

(** The state a run leaves and its events. *)
Definition result : Type := option (state * trace).

Definition run (t : tree) (st : state) : result :=
  match eval t st with
  | Some (_, st', tr) => Some (st', tr)
  | None => None
  end.

(** The events [tr], then what [r] does. *)
Definition prefix (tr : trace) (r : result) : result :=
  match r with
  | Some (st, t) => Some (st, tr ++ t)
  | None => None
  end.

(** What [r] does, then [k] from the state [r] leaves. *)
Definition andthen (r : result) (k : state -> result) : result :=
  match r with
  | Some (st, t) => prefix t (k st)
  | None => None
  end.

(** The run that only writes [s]. *)
Definition writes (s : string) (st : state) : result := Some (st, [EvOut s]).

Definition run_opt (o : option tree) (st : state) : result :=
  match o with Some t => run t st | None => None end.

(** What a run writes, and how often it enters [f]. *)
Definition printed (o : option tree) (st : state) : option string :=
  option_map (fun r => stdout (snd r)) (run_opt o st).

Definition calls_of (f : string) (o : option tree) (st : state) : option nat :=
  option_map (fun r => count_calls f (snd r)) (run_opt o st).

(** [n] evaluations of [e] in a row, the values being dropped. *)
Fixpoint repeat_eval (n : nat) (e : tree) (st : state) : result :=
  match n with
  | O => Some (st, [])
  | S n' => andthen (run e st) (repeat_eval n' e)
  end.

(** The value and the events of an evaluation from [st], and the events of
    a run from [st], the state they leave being dropped. *)
Definition outcome (st : state) (t : tree) : Semantics.comp Z :=
  match eval t st with
  | Some (v, _, tr) => Some (v, tr)
  | None => None
  end.

Definition events (st : state) (t : tree) : option trace :=
  match run t st with
  | Some (_, tr) => Some tr
  | None => None
  end.

(** A computation that leaves the state it was started in. *)
Definition keeps {A : Type} (c : comp A) : Prop :=
  forall st a st' tr, c st = Some (a, st', tr) -> st' = st.

(** No user function changes the state. *)
Definition state_preserving : Prop :=
  forall f g vs st, fenv m f = Some g -> snd (g vs st) = st.

(** [skipped_replaced st c c']: the condition [c'] is [c] in which operands
    that short-circuit evaluation from the state [st] leaves unevaluated
    were replaced by arbitrary trees: the right operand of a
    [TRUTH_ANDIF_EXPR] whose left operand is false, and that of a
    [TRUTH_ORIF_EXPR] whose left operand is true. *)
Inductive skipped_replaced (st : state) : tree -> tree -> Prop :=
  | sr_same (t : tree) : skipped_replaced st t t
  | sr_and_skipped (l l' r r' : tree) (st' : state) (tr : trace) :
      skipped_replaced st l l' ->
      eval l st = Some (0, st', tr) ->
      skipped_replaced st (Binary TRUTH_ANDIF_EXPR l r)
                          (Binary TRUTH_ANDIF_EXPR l' r')
  | sr_or_skipped (l l' r r' : tree) (v : Z) (st' : state) (tr : trace) :
      skipped_replaced st l l' ->
      eval l st = Some (v, st', tr) -> v <> 0 ->
      skipped_replaced st (Binary TRUTH_ORIF_EXPR l r)
                          (Binary TRUTH_ORIF_EXPR l' r')
  | sr_binary (c : binary_code) (l l' r r' : tree) :
      skipped_replaced st l l' ->
      skipped_replaced st r r' ->
      skipped_replaced st (Binary c l r) (Binary c l' r').

End Eval.

Arguments ret {state A}.
Arguments bind {state A B}.
Arguments fail {state A}.
Arguments lift {state A}.
Arguments emit {state}.
Arguments read {state}.
Arguments enter {state}.
Arguments eval {state}.
Arguments eval_args {state}.
Arguments eval_stmts {state}.
Arguments run {state}.
Arguments prefix {state}.
Arguments andthen {state}.
Arguments writes {state}.
Arguments run_opt {state}.
Arguments printed {state}.
Arguments calls_of {state}.
Arguments repeat_eval {state}.
Arguments keeps {state A}.
Arguments state_preserving {state}.
Arguments outcome {state}.
Arguments events {state}.
Arguments skipped_replaced {state}.

(** The outcome of a binary node from the outcomes of its operands, when
    all of them are evaluated from the same state. *)
Definition binary_outcome (c : binary_code) (oa ob : Semantics.comp Z)
  : Semantics.comp Z :=
  match c with
  | TRUTH_ANDIF_EXPR =>
      x <- oa ;;
      if x =? 0 then Semantics.ret 0
      else y <- ob ;; Semantics.ret (truth (negb (y =? 0)))
  | TRUTH_ORIF_EXPR =>
      x <- oa ;;
      if x =? 0 then y <- ob ;; Semantics.ret (truth (negb (y =? 0)))
      else Semantics.ret 1
  | _ => x <- oa ;; y <- ob ;; Semantics.lift (binop c x y)
  end.

(** A program whose functions compute their result from their arguments
    alone and whose variables keep their values. *)
Definition stateless (ve : string -> option Z) (fe : string -> option (list Z -> Z))
           (o : arg_order) : machine unit :=
  {| venv := fun _ => ve;
     fenv := fun f => option_map (fun g vs st => (g vs, st)) (fe f);
     str_addr := fun _ => 0;
     order := o |}.

(** [q] does what [p] does: where [p] has a value, [q] has the same value
    and the same events. *)
Definition extends {A : Type} (p : Semantics.comp A) (q : comp unit A) : Prop :=
  forall a tr, p = Some (a, tr) -> q tt = Some (a, tt, tr).

(** The state counts the calls of [flip], which returns 0 the first time
    and 1 afterwards; [y] has the value [yv] where it is bound. *)
Definition flipping (yv : option Z) (o : arg_order) : machine nat :=
  {| venv := fun _ x => if String.eqb x "y" then yv else None;
     fenv := fun f =>
       if String.eqb f "flip"
       then Some (fun _ n => (match n with O => 0 | _ => 1 end, S n))
       else None;
     str_addr := fun _ => 0;
     order := o |}.

(** [flip() && y == 2] *)
Definition flip_and_y : tree :=
  Binary TRUTH_ANDIF_EXPR (call_fn "flip" [])
                          (Binary EQ_EXPR (var "y") (Cst 2)).

End Machine.

(* ================================================================= *)
(** ** What the traversal visits *)

Module Visits.

(** The bodies of the bind blocks the traversal examines in [t]: the body
    of the block it is given when that body is not a statement list, and,
    for a statement list (of a block or on its own), what it examines in
    those of its statements that are bind blocks. *)
Fixpoint visited_bodies (t : tree) : list tree :=
  let in_stmts :=
    fix in_stmts (l : list tree) : list tree :=
      match l with
      | [] => []
      | stmt :: rest =>
          (if code_is (TREE_CODE stmt) BIND_EXPR
           then visited_bodies stmt else [])
          ++ in_stmts rest
      end in
  match t with
  | Bind body =>
      match body with
      | StmtList l => in_stmts l
      | _ => [body]
      end
  | StmtList l => in_stmts l
  | _ => []
  end.

Fixpoint visited_in_stmts (l : list tree) : list tree :=
  match l with
  | [] => []
  | stmt :: rest =>
      (if code_is (TREE_CODE stmt) BIND_EXPR then visited_bodies stmt else [])
      ++ visited_in_stmts rest
  end.

End Visits.
Import Visits.

(* ================================================================= *)
(** * Properties *)

(** ** Strings and the monad of runs *)

Lemma append_assoc (a b c : string) : ((a ++ b) ++ c = a ++ (b ++ c))%string.
Proof. induction a as [|x a IH]; simpl; [reflexivity | now rewrite IH]. Qed.

Lemma append_empty_r (a : string) : (a ++ "")%string = a.
Proof. induction a as [|x a IH]; simpl; [reflexivity | now rewrite IH]. Qed.

Lemma strn_take_all (s : string) : strn_take (String.length s) s = s.
Proof. induction s as [|x s IH]; simpl; [reflexivity | now rewrite IH]. Qed.

Lemma strn_take_fits (n : nat) (s : string) :
  (String.length s <= n)%nat -> strn_take n s = s.
Proof.
  revert n; induction s as [|x s IH]; intros [|n] H; simpl in *; try reflexivity.
  - lia.
  - rewrite IH by lia. reflexivity.
Qed.

Lemma build_string_literal_strlen (s : string) :
  build_string_literal (String.length s + 1) s = Unary ADDR_EXPR (Str s).
Proof.
  unfold build_string_literal.
  replace (String.length s + 1 - 1)%nat with (String.length s) by lia.
  now rewrite strn_take_all.
Qed.

Lemma then_assoc (a b c : option trace) :
  then_ (then_ a b) c = then_ a (then_ b c).
Proof.
  destruct a, b, c; simpl; try reflexivity. now rewrite <- app_assoc.
Qed.

Lemma then_nil_l (a : option trace) : then_ (Some []) a = a.
Proof. now destruct a. Qed.

Lemma stdout_app (a b : trace) : stdout (a ++ b) = (stdout a ++ stdout b)%string.
Proof.
  induction a as [|[f vs | s] a IH]; simpl; try assumption; [reflexivity|].
  now rewrite IH, append_assoc.
Qed.

Section RunLemmas.

Variable venv : string -> option Z.
Variable fenv : string -> option (list Z -> Z).

Local Abbreviation eval := (Semantics.eval venv fenv).
Local Abbreviation run := (Semantics.run venv fenv).
Local Abbreviation eval_stmts := (Semantics.eval_stmts venv fenv).

Lemma eval_StmtList (l : list tree) : eval (StmtList l) = eval_stmts l.
Proof.
  induction l as [|s l IH]; [reflexivity|].
  simpl in *. now rewrite IH.
Qed.

Lemma eval_stmts_app (l1 l2 : list tree) :
  option_map snd (eval_stmts (l1 ++ l2)) =
  then_ (option_map snd (eval_stmts l1)) (option_map snd (eval_stmts l2)).
Proof.
  induction l1 as [|s l1 IH]; simpl.
  - now destruct (eval_stmts l2) as [[? ?]|].
  - unfold bind. destruct (Semantics.eval venv fenv s) as [[v t1]|]; [|reflexivity].
    destruct (eval_stmts (l1 ++ l2)) as [[v12 t12]|];
      destruct (eval_stmts l1) as [[v1 t'1]|];
      destruct (eval_stmts l2) as [[v2 t2]|]; simpl in *; try congruence.
    injection IH as ->. now rewrite app_assoc.
Qed.

Lemma run_StmtList_app (l1 l2 : list tree) :
  run (StmtList (l1 ++ l2)) = then_ (run (StmtList l1)) (run (StmtList l2)).
Proof. unfold Semantics.run. rewrite !eval_StmtList. apply eval_stmts_app. Qed.

Lemma run_StmtList_nil : run (StmtList []) = Some [].
Proof. reflexivity. Qed.

Lemma run_StmtList_single (t : tree) : run (StmtList [t]) = run t.
Proof.
  unfold Semantics.run. simpl. unfold bind.
  destruct (Semantics.eval venv fenv t) as [[v tr]|]; simpl; [|reflexivity].
  now rewrite app_nil_r.
Qed.

Lemma run_Cond (c a b : tree) :
  run (Cond c a b) =
  match eval c with
  | None => None
  | Some (v, tr) => then_ (Some tr) (if v =? 0 then run b else run a)
  end.
Proof.
  unfold Semantics.run. simpl. unfold bind.
  destruct (Semantics.eval venv fenv c) as [[v tr]|]; [|reflexivity].
  destruct (v =? 0).
  - now destruct (Semantics.eval venv fenv b) as [[? ?]|].
  - now destruct (Semantics.eval venv fenv a) as [[? ?]|].
Qed.

Lemma run_build_empty_stmt : run build_empty_stmt = Some [].
Proof. reflexivity. Qed.

(** A [printf] of a text without conversions writes that text. *)
Lemma run_make_printf_text (s : string) :
  format_printf s [] = Some s ->
  run (RuntimeRewrite.make_printf the_printf s None) = writes s.
Proof.
  intros H. unfold RuntimeRewrite.make_printf.
  rewrite build_string_literal_strlen.
  unfold Semantics.run. simpl. rewrite H. reflexivity.
Qed.

(** The [printf] of a leaf evaluates it and writes its value. *)
Lemma run_make_printf_leaf (e : tree) :
  run (RuntimeRewrite.make_printf the_printf "%d" (Some [e])) =
  match eval e with
  | None => None
  | Some (v, tr) => Some (tr ++ [EvOut (string_of_Z v)])
  end.
Proof.
  unfold Semantics.run. simpl. unfold bind.
  destruct (Semantics.eval venv fenv e) as [[v tr]|]; simpl; [|reflexivity].
  now rewrite app_nil_r, append_empty_r.
Qed.

Lemma append_to_statement_list_spec (t : tree) (l : list tree) :
  append_to_statement_list t (StmtList l) = StmtList (l ++ stmts_of t).
Proof. now destruct t. Qed.

Lemma run_stmts_of (t : tree) : run (StmtList (stmts_of t)) = run t.
Proof. destruct t; try apply run_StmtList_single; reflexivity. Qed.

Lemma get_expr_op_repr_glyph (c : binary_code) (l r : tree) :
  get_expr_op_repr (Binary c l r) = glyph c.
Proof. reflexivity. Qed.

(** Only binary nodes are in the operator table. *)
Lemma get_expr_op_repr_binary (e : tree) (op : string) :
  get_expr_op_repr e = Some op ->
  exists c l r, e = Binary c l r /\ glyph c = Some op.
Proof.
  destruct e; try discriminate. intros H. now exists c, e1, e2.
Qed.

(** *** The shape of the generated code, case by case *)

Lemma diag_and (c : binary_code) (l r : tree) :
  is_and c = true ->
  diag (Binary c l r) =
  Cond l
    (StmtList ((([] ++ stmts_of (RuntimeRewrite.make_printf the_printf "(...) && (" None))
                ++ stmts_of (diag r))
               ++ stmts_of (RuntimeRewrite.make_printf the_printf ")" None)))
    (StmtList ([] ++ stmts_of (diag l))).
Proof.
  intros H. rewrite <- !append_to_statement_list_spec.
  destruct c; try discriminate; reflexivity.
Qed.

Lemma diag_or (c : binary_code) (l r : tree) :
  is_or c = true ->
  diag (Binary c l r) =
  Cond (Binary c l r) build_empty_stmt
    (StmtList ((((([] ++ stmts_of (RuntimeRewrite.make_printf the_printf "(" None))
                  ++ stmts_of (diag l))
                 ++ stmts_of (RuntimeRewrite.make_printf the_printf ") || (" None))
                ++ stmts_of (diag r))
               ++ stmts_of (RuntimeRewrite.make_printf the_printf ")" None))).
Proof.
  intros H. rewrite <- !append_to_statement_list_spec.
  destruct c; try discriminate; reflexivity.
Qed.

Lemma diag_binary (c : binary_code) (op : string) (l r : tree) :
  is_and c = false -> is_or c = false -> glyph c = Some op ->
  diag (Binary c l r) =
  StmtList ((([] ++ stmts_of (diag l))
             ++ stmts_of (RuntimeRewrite.make_printf the_printf (" " ++ op ++ " ")%string None))
            ++ stmts_of (diag r)).
Proof.
  intros Ha Ho Hg. rewrite <- !append_to_statement_list_spec.
  destruct c; try discriminate; injection Hg as <-; reflexivity.
Qed.

Lemma diag_leaf (e : tree) :
  get_expr_op_repr e = None ->
  diag e = StmtList [RuntimeRewrite.make_printf the_printf "%d" (Some [e])].
Proof.
  destruct e; try reflexivity. destruct c; try discriminate; reflexivity.
Qed.

(** *** What the generated code does, case by case *)

Lemma run_diag_and (c : binary_code) (l r : tree) :
  is_and c = true ->
  run (diag (Binary c l r)) =
  match eval l with
  | None => None
  | Some (v, tr) =>
      then_ (Some tr)
        (if v =? 0 then run (diag l)
         else then_ (writes "(...) && (") (then_ (run (diag r)) (writes ")")))
  end.
Proof.
  intros H. rewrite (diag_and _ _ _ H), run_Cond.
  destruct (eval l) as [[v tr]|]; [|reflexivity].
  rewrite !run_StmtList_app, !run_stmts_of, run_StmtList_nil, !then_nil_l.
  rewrite !run_make_printf_text by reflexivity.
  now rewrite then_assoc.
Qed.

Lemma run_diag_or (c : binary_code) (l r : tree) :
  is_or c = true ->
  run (diag (Binary c l r)) =
  match eval (Binary c l r) with
  | None => None
  | Some (v, tr) =>
      then_ (Some tr)
        (if v =? 0
         then then_ (writes "(")
                (then_ (run (diag l))
                   (then_ (writes ") || (") (then_ (run (diag r)) (writes ")"))))
         else Some [])
  end.
Proof.
  intros H. rewrite (diag_or _ _ _ H), run_Cond.
  destruct (eval (Binary c l r)) as [[v tr]|]; [|reflexivity].
  rewrite !run_StmtList_app, !run_stmts_of, run_StmtList_nil, !then_nil_l.
  rewrite !run_make_printf_text by reflexivity.
  now rewrite !then_assoc, run_build_empty_stmt.
Qed.

Lemma run_diag_binary (c : binary_code) (op : string) (l r : tree) :
  is_and c = false -> is_or c = false -> glyph c = Some op ->
  run (diag (Binary c l r)) =
  then_ (run (diag l)) (then_ (writes (" " ++ op ++ " ")%string) (run (diag r))).
Proof.
  intros Ha Ho Hg. rewrite (diag_binary _ _ _ _ Ha Ho Hg).
  rewrite !run_StmtList_app, !run_stmts_of, run_StmtList_nil, !then_nil_l.
  rewrite run_make_printf_text, then_assoc; [reflexivity|].
  destruct c; try discriminate; injection Hg as <-; reflexivity.
Qed.

Lemma run_diag_leaf (e : tree) :
  get_expr_op_repr e = None ->
  run (diag e) =
  match eval e with
  | None => None
  | Some (v, tr) => Some (tr ++ [EvOut (string_of_Z v)])
  end.
Proof.
  intros H. rewrite (diag_leaf _ H), run_StmtList_single.
  apply run_make_printf_leaf.
Qed.

End RunLemmas.

(* ================================================================= *)
(** ** Runs with program state *)

Section MachineLemmas.

Variable state : Type.
Variable m : Machine.machine state.

Local Abbreviation eval := (Machine.eval m).
Local Abbreviation run := (Machine.run m).
Local Abbreviation eval_stmts := (Machine.eval_stmts m).
Local Abbreviation eval_args := (Machine.eval_args m).
Local Abbreviation result := (Machine.result state).
Local Abbreviation prefix := (@Machine.prefix state).
Local Abbreviation andthen := (@Machine.andthen state).
Local Abbreviation writes := (@Machine.writes state).

Lemma machine_prefix_nil (r : result) : prefix [] r = r.
Proof. now destruct r as [[st t]|]. Qed.

Lemma machine_prefix_prefix (a b : trace) (r : result) :
  prefix a (prefix b r) = prefix (a ++ b) r.
Proof. destruct r as [[st t]|]; simpl; [|reflexivity]. now rewrite app_assoc. Qed.

Lemma machine_andthen_prefix (tr : trace) (r : result) (k : state -> result) :
  andthen (prefix tr r) k = prefix tr (andthen r k).
Proof.
  destruct r as [[st t]|]; simpl; [|reflexivity].
  now rewrite machine_prefix_prefix.
Qed.

Lemma machine_andthen_assoc (r : result) (k1 k2 : state -> result) :
  andthen (andthen r k1) k2 = andthen r (fun st => andthen (k1 st) k2).
Proof.
  destruct r as [[st t]|]; simpl; [|reflexivity]. apply machine_andthen_prefix.
Qed.

Lemma machine_andthen_ext (r : result) (k k' : state -> result) :
  (forall st, k st = k' st) -> andthen r k = andthen r k'.
Proof. intros H. destruct r as [[st t]|]; simpl; [|reflexivity]. now rewrite H. Qed.

Lemma machine_eval_StmtList (l : list tree) (st : state) :
  eval (StmtList l) st = eval_stmts l st.
Proof. reflexivity. Qed.

Lemma machine_eval_stmts_app (l1 l2 : list tree) (st : state) :
  match eval_stmts (l1 ++ l2) st with
  | Some (_, st', tr) => Some (st', tr)
  | None => None
  end =
  andthen (match eval_stmts l1 st with
           | Some (_, st', tr) => Some (st', tr)
           | None => None
           end)
          (fun st1 => match eval_stmts l2 st1 with
                      | Some (_, st', tr) => Some (st', tr)
                      | None => None
                      end).
Proof.
  revert st. induction l1 as [|s l1 IH]; intros st; simpl.
  - now destruct (eval_stmts l2 st) as [[[v st'] t]|].
  - unfold Machine.bind.
    destruct (Machine.eval m s st) as [[[v st1] t1]|]; [|reflexivity].
    specialize (IH st1).
    destruct (eval_stmts (l1 ++ l2) st1) as [[[v12 st12] t12]|];
      destruct (eval_stmts l1 st1) as [[[v1 st'1] t'1]|]; simpl in *;
      try congruence;
      destruct (eval_stmts l2 st'1) as [[[v2 st2] t2]|]; simpl in *;
      try congruence.
    injection IH as -> ->. now rewrite app_assoc.
Qed.

Lemma machine_run_StmtList_app (l1 l2 : list tree) (st : state) :
  run (StmtList (l1 ++ l2)) st =
  andthen (run (StmtList l1) st) (run (StmtList l2)).
Proof. exact (machine_eval_stmts_app l1 l2 st). Qed.

Lemma machine_run_StmtList_nil (st : state) : run (StmtList []) st = Some (st, []).
Proof. reflexivity. Qed.

Lemma machine_run_StmtList_single (t : tree) (st : state) :
  run (StmtList [t]) st = run t st.
Proof.
  unfold Machine.run. simpl. unfold Machine.bind.
  destruct (Machine.eval m t st) as [[[v st1] tr]|]; simpl; [|reflexivity].
  now rewrite app_nil_r.
Qed.

Lemma machine_run_stmts_of (t : tree) (st : state) :
  run (StmtList (stmts_of t)) st = run t st.
Proof. destruct t; try apply machine_run_StmtList_single; reflexivity. Qed.

(** Appending the statements of [t] runs [t] afterwards. *)
Lemma machine_run_append (l : list tree) (t : tree) (st : state) :
  run (StmtList (l ++ stmts_of t)) st = andthen (run (StmtList l) st) (run t).
Proof.
  rewrite machine_run_StmtList_app. apply machine_andthen_ext.
  apply machine_run_stmts_of.
Qed.

Lemma machine_run_Cond (c a b : tree) (st : state) :
  run (Cond c a b) st =
  match eval c st with
  | None => None
  | Some (v, st1, tr) => prefix tr (if v =? 0 then run b st1 else run a st1)
  end.
Proof.
  unfold Machine.run. simpl. unfold Machine.bind.
  destruct (Machine.eval m c st) as [[[v st1] tr]|]; [|reflexivity].
  destruct (v =? 0).
  - now destruct (Machine.eval m b st1) as [[[? ?] ?]|].
  - now destruct (Machine.eval m a st1) as [[[? ?] ?]|].
Qed.

Lemma machine_run_build_empty_stmt (st : state) :
  run build_empty_stmt st = Some (st, []).
Proof. reflexivity. Qed.

(** A call of [printf] evaluates its arguments, then writes. *)
Lemma machine_run_printf_call (fmt : string) (args : list tree) (st : state) :
  run (build_call_expr the_printf (Unary ADDR_EXPR (Str fmt) :: args)) st =
  match eval_args args st with
  | None => None
  | Some (vs, st1, tr) =>
      match format_printf fmt vs with
      | None => None
      | Some s => Some (st1, tr ++ [EvOut s])
      end
  end.
Proof.
  unfold Machine.run.
  change (Machine.eval m
            (build_call_expr the_printf (Unary ADDR_EXPR (Str fmt) :: args)) st)
    with (Machine.bind (eval_args args) (fun vs =>
          Machine.bind (Machine.lift (format_printf fmt vs)) (fun s =>
          Machine.bind (Machine.emit (EvOut s)) (fun _ =>
          Machine.ret (Z.of_nat (String.length s))))) st).
  unfold Machine.bind. destruct (eval_args args st) as [[[vs st1] tr]|]; [|reflexivity].
  unfold Machine.lift. destruct (format_printf fmt vs) as [s|]; reflexivity.
Qed.

(** One argument is evaluated the same in both orders. *)
Lemma machine_eval_args_single (e : tree) (st : state) :
  eval_args [e] st =
  match eval e st with
  | None => None
  | Some (v, st1, tr) => Some ([v], st1, tr)
  end.
Proof.
  simpl. destruct (Machine.order m); unfold Machine.bind; simpl;
    destruct (Machine.eval m e st) as [[[v st1] tr]|]; simpl;
    try reflexivity; now rewrite ?app_nil_r.
Qed.

(** A [printf] of a text without conversions writes that text. *)
Lemma machine_run_make_printf_text (s : string) (st : state) :
  format_printf s [] = Some s ->
  run (RuntimeRewrite.make_printf the_printf s None) st = writes s st.
Proof.
  intros H. unfold RuntimeRewrite.make_printf.
  rewrite build_string_literal_strlen, machine_run_printf_call.
  simpl. now rewrite H.
Qed.

(** The [printf] of a leaf evaluates it and writes its value. *)
Lemma machine_run_make_printf_leaf (e : tree) (st : state) :
  run (RuntimeRewrite.make_printf the_printf "%d" (Some [e])) st =
  match eval e st with
  | None => None
  | Some (v, st1, tr) => Some (st1, tr ++ [EvOut (string_of_Z v)])
  end.
Proof.
  unfold RuntimeRewrite.make_printf.
  rewrite build_string_literal_strlen.
  cbn [vec_safe_insert firstn skipn app].
  rewrite machine_run_printf_call, machine_eval_args_single.
  destruct (Machine.eval m e st) as [[[v st1] tr]|]; [|reflexivity].
  simpl. now rewrite append_empty_r.
Qed.

(** *** What the generated code does, case by case *)

Lemma machine_run_diag_and (c : binary_code) (l r : tree) (st : state) :
  is_and c = true ->
  run (diag (Binary c l r)) st =
  match eval l st with
  | None => None
  | Some (v, st1, tr) =>
      prefix tr
        (if v =? 0 then run (diag l) st1
         else andthen (andthen (writes "(...) && (" st1) (run (diag r)))
                      (writes ")"))
  end.
Proof.
  intros H. rewrite (diag_and _ _ _ H), machine_run_Cond.
  destruct (eval l st) as [[[v st1] tr]|]; [|reflexivity].
  rewrite !machine_run_append, machine_run_StmtList_nil.
  cbn [Machine.andthen]. rewrite !machine_prefix_nil.
  rewrite machine_run_make_printf_text by reflexivity.
  now rewrite (machine_andthen_ext _ _ (writes ")"))
    by (intros; now apply machine_run_make_printf_text).
Qed.

Lemma machine_run_diag_or (c : binary_code) (l r : tree) (st : state) :
  is_or c = true ->
  run (diag (Binary c l r)) st =
  match eval (Binary c l r) st with
  | None => None
  | Some (v, st1, tr) =>
      prefix tr
        (if v =? 0
         then andthen
                (andthen
                   (andthen (andthen (writes "(" st1) (run (diag l)))
                            (writes ") || ("))
                   (run (diag r)))
                (writes ")")
         else Some (st1, []))
  end.
Proof.
  intros H. rewrite (diag_or _ _ _ H), machine_run_Cond.
  destruct (eval (Binary c l r) st) as [[[v st1] tr]|]; [|reflexivity].
  rewrite !machine_run_append, machine_run_StmtList_nil.
  cbn [Machine.andthen]. rewrite !machine_prefix_nil.
  rewrite machine_run_make_printf_text by reflexivity.
  rewrite (machine_andthen_ext _ _ (writes ")"))
    by (intros; now apply machine_run_make_printf_text).
  rewrite (machine_andthen_ext _ (run (RuntimeRewrite.make_printf the_printf ") || (" None))
             (writes ") || ("))
    by (intros; now apply machine_run_make_printf_text).
  reflexivity.
Qed.

Lemma machine_run_diag_binary (c : binary_code) (op : string) (l r : tree)
      (st : state) :
  is_and c = false -> is_or c = false -> glyph c = Some op ->
  run (diag (Binary c l r)) st =
  andthen (andthen (run (diag l) st) (writes (" " ++ op ++ " ")%string))
          (run (diag r)).
Proof.
  intros Ha Ho Hg. rewrite (diag_binary _ _ _ _ Ha Ho Hg).
  rewrite !machine_run_append, machine_run_StmtList_nil.
  cbn [Machine.andthen]. rewrite !machine_prefix_nil.
  rewrite (machine_andthen_ext _
             (run (RuntimeRewrite.make_printf the_printf (" " ++ op ++ " ")%string None))
             (writes (" " ++ op ++ " ")%string));
    [reflexivity|].
  intros st'. apply machine_run_make_printf_text.
  destruct c; try discriminate; injection Hg as <-; reflexivity.
Qed.

Lemma machine_run_diag_leaf (e : tree) (st : state) :
  get_expr_op_repr e = None ->
  run (diag e) st =
  match eval e st with
  | None => None
  | Some (v, st1, tr) => Some (st1, tr ++ [EvOut (string_of_Z v)])
  end.
Proof.
  intros H. rewrite (diag_leaf _ H), machine_run_StmtList_single.
  apply machine_run_make_printf_leaf.
Qed.

End MachineLemmas.

Section MachineArgs.

Variable state : Type.
Variable m : Machine.machine state.

Lemma machine_eval_args_length (l : list tree) :
  forall st vs st' tr,
    Machine.eval_args m l st = Some (vs, st', tr) -> length vs = length l.
Proof.
  induction l as [|a l IH]; intros st vs st' tr H; simpl in H.
  - now injection H as <- _ _.
  - destruct (Machine.order m); unfold Machine.bind in H.
    + destruct (Machine.eval m a st) as [[[v s1] t1]|]; [|discriminate].
      destruct (Machine.eval_args m l s1) as [[[ws s2] t2]|] eqn:El; [|discriminate].
      injection H as <- _ _. simpl. now rewrite (IH _ _ _ _ El).
    + destruct (Machine.eval_args m l st) as [[[ws s1] t1]|] eqn:El; [|discriminate].
      destruct (Machine.eval m a s1) as [[[v s2] t2]|]; [|discriminate].
      injection H as <- _ _. simpl. now rewrite (IH _ _ _ _ El).
Qed.

(** Two arguments, in each of the two orders. *)
Lemma machine_eval_args_pair (l r : tree) (st : state) :
  Machine.eval_args m [l; r] st =
  match Machine.order m with
  | Machine.LeftToRight =>
      match Machine.eval m l st with
      | None => None
      | Some (x, s1, t1) =>
          match Machine.eval m r s1 with
          | None => None
          | Some (y, s2, t2) => Some ([x; y], s2, t1 ++ t2)
          end
      end
  | Machine.RightToLeft =>
      match Machine.eval m r st with
      | None => None
      | Some (y, s1, t2) =>
          match Machine.eval m l s1 with
          | None => None
          | Some (x, s2, t1) => Some ([x; y], s2, t2 ++ t1)
          end
      end
  end.
Proof.
  simpl. destruct (Machine.order m); unfold Machine.bind; simpl.
  - destruct (Machine.eval m l st) as [[[x s1] t1]|]; [|reflexivity].
    destruct (Machine.eval m r s1) as [[[y s2] t2]|]; [|reflexivity].
    simpl. now rewrite !app_nil_r.
  - destruct (Machine.eval m r st) as [[[y s1] t2]|]; [|reflexivity].
    simpl. destruct (Machine.eval m l s1) as [[[x s2] t1]|]; [|reflexivity].
    simpl. now rewrite !app_nil_r.
Qed.

(** [__assert_fail] does not return: a run that reaches it has no result,
    whatever its arguments are. *)
Lemma machine_eval_assert_fail (args : list tree) (st : state) :
  Machine.fenv m "__assert_fail" = None ->
  Machine.eval m (Call (Unary ADDR_EXPR (Decl FUNCTION_DECL "__assert_fail")) args) st
  = None.
Proof.
  intros Hf.
  change (Machine.eval m
            (Call (Unary ADDR_EXPR (Decl FUNCTION_DECL "__assert_fail")) args) st)
    with (Machine.bind (Machine.eval_args m args) (fun vs =>
          Machine.bind (Machine.lift (Machine.fenv m "__assert_fail")) (fun g =>
          Machine.bind (Machine.emit (EvCall "__assert_fail" vs)) (fun _ =>
          Machine.enter g vs))) st).
  rewrite Hf. unfold Machine.bind.
  now destruct (Machine.eval_args m args st) as [[[? ?] ?]|].
Qed.

Lemma machine_repeat_eval_snoc (n : nat) (e : tree) (st : state) :
  Machine.andthen (Machine.repeat_eval m n e st) (Machine.run m e)
  = Machine.repeat_eval m (S n) e st.
Proof.
  revert st. induction n as [|n IH]; intros st.
  - cbn [Machine.repeat_eval Machine.andthen].
    rewrite machine_prefix_nil.
    destruct (Machine.run m e st) as [[s1 t1]|]; [|reflexivity].
    simpl. now rewrite app_nil_r.
  - change (Machine.repeat_eval m (S n) e st)
      with (Machine.andthen (Machine.run m e st) (Machine.repeat_eval m n e)).
    rewrite machine_andthen_assoc.
    change (Machine.repeat_eval m (S (S n)) e st)
      with (Machine.andthen (Machine.run m e st) (Machine.repeat_eval m (S n) e)).
    apply machine_andthen_ext. exact IH.
Qed.

(** A chain of [&&] whose first conjunct is false whenever it is evaluated
    is false after the first conjunct alone, and its printing code tests
    the first conjunct once for every [&&] before it prints it. *)
Lemma machine_and_chain_first_false (e0 : tree) :
  (forall st, exists st' tr, Machine.eval m e0 st = Some (0, st', tr)) ->
  forall rest st,
    Machine.eval m (and_chain e0 rest) st = Machine.eval m e0 st /\
    Machine.run m (diag (and_chain e0 rest)) st
    = Machine.andthen (Machine.repeat_eval m (length rest) e0 st)
                      (Machine.run m (diag e0)).
Proof.
  intros H0 rest. induction rest as [|e rest IH] using rev_ind; intros st.
  - split; [reflexivity|]. cbn [length Machine.repeat_eval Machine.andthen].
    now rewrite machine_prefix_nil.
  - unfold and_chain in *. rewrite fold_left_app. cbn [fold_left].
    destruct (IH st) as [He Hr].
    assert (Hc : Machine.eval m (Binary TRUTH_ANDIF_EXPR (fold_left
                   (fun acc e1 => Binary TRUTH_ANDIF_EXPR acc e1) rest e0) e) st
                 = Machine.eval m e0 st).
    { simpl. unfold Machine.bind. rewrite He.
      destruct (H0 st) as (st' & tr & ->). simpl. now rewrite app_nil_r. }
    split; [exact Hc|].
    rewrite machine_run_diag_and by reflexivity. rewrite He.
    destruct (H0 st) as (st' & tr & E0). rewrite E0.
    change (0 =? 0) with true. cbv iota.
    destruct (IH st') as [_ Hr']. rewrite Hr'.
    rewrite length_app, Nat.add_comm. cbn [length Nat.add].
    change (Machine.repeat_eval m (S (length rest)) e0 st)
      with (Machine.andthen (Machine.run m e0 st)
                            (Machine.repeat_eval m (length rest) e0)).
    unfold Machine.run at 2. rewrite E0.
    cbn [Machine.andthen]. now rewrite machine_andthen_prefix.
Qed.

End MachineArgs.

(* ================================================================= *)
(** ** The evaluator without state is a case of the evaluator with state *)

Section Stateless.

Variable venv : string -> option Z.
Variable fenv : string -> option (list Z -> Z).

Local Abbreviation m := (Machine.stateless venv fenv Machine.LeftToRight).
Local Abbreviation extends := (@Machine.extends _).

Lemma extends_none {A : Type} (q : Machine.comp unit A) : extends None q.
Proof. intros a tr H. discriminate. Qed.

Lemma extends_ret {A : Type} (a : A) : extends (Semantics.ret a) (Machine.ret a).
Proof. intros a' tr H. now injection H as <- <-. Qed.

Lemma extends_lift {A : Type} (o : option A) :
  extends (Semantics.lift o) (Machine.lift o).
Proof. destruct o; [apply extends_ret | apply extends_none]. Qed.

Lemma extends_emit (e : event) : extends (Semantics.emit e) (Machine.emit e).
Proof. intros a tr H. now injection H as <- <-. Qed.

Lemma extends_read (x : string) :
  extends (Semantics.lift (venv x)) (Machine.read m x).
Proof.
  unfold Machine.read. simpl. destruct (venv x);
    [apply extends_ret | apply extends_none].
Qed.

Lemma extends_bind {A B : Type} (p : Semantics.comp A) (q : Machine.comp unit A)
      (k : A -> Semantics.comp B) (k' : A -> Machine.comp unit B) :
  extends p q -> (forall a, extends (k a) (k' a)) ->
  extends (Semantics.bind p k) (Machine.bind q k').
Proof.
  intros Hp Hk b tr H. unfold Semantics.bind in H. unfold Machine.bind.
  destruct p as [[a t1]|]; [|discriminate].
  rewrite (Hp a t1 eq_refl).
  destruct (k a) as [[b' t2]|] eqn:Ek; [|discriminate].
  rewrite (Hk a b' t2 Ek). now injection H as <- <-.
Qed.

Lemma extends_if {A : Type} (b : bool) (p1 p2 : Semantics.comp A)
      (q1 q2 : Machine.comp unit A) :
  extends p1 q1 -> extends p2 q2 ->
  extends (if b then p1 else p2) (if b then q1 else q2).
Proof. now destruct b. Qed.

Ltac extends_tac :=
  repeat first
    [ assumption
    | apply extends_none | apply extends_ret | apply extends_lift
    | apply extends_emit | apply extends_read
    | apply extends_if
    | apply extends_bind; [|intros ?] ].

Lemma extends_eval_list (l : list tree) :
  Forall (fun a => extends (Semantics.eval venv fenv a) (Machine.eval m a)) l ->
  extends (Notions.eval_list venv fenv l) (Machine.eval_args m l).
Proof. induction 1 as [|a l Ha _ IH]; simpl; extends_tac. Qed.

Lemma extends_eval_stmts (l : list tree) :
  Forall (fun a => extends (Semantics.eval venv fenv a) (Machine.eval m a)) l ->
  extends (Semantics.eval_stmts venv fenv l) (Machine.eval_stmts m l).
Proof. induction 1 as [|a l Ha _ IH]; simpl; extends_tac. Qed.

(** Whatever the evaluator without state computes, the evaluator with
    state computes for functions that have no effect and arguments
    evaluated from left to right. *)
Lemma extends_eval (t : tree) :
  extends (Semantics.eval venv fenv t) (Machine.eval m t).
Proof.
  induction t as [z | s | dc name | uc a IHa | bc a b IHa IHb | c a b IHc IHa IHb
                  | fn args _ IHargs | body IH | l IH] using tree_nested_ind.
  - apply extends_ret.
  - apply extends_none.
  - destruct dc; simpl; extends_tac.
  - destruct uc; simpl; extends_tac.
  - destruct bc; simpl; extends_tac.
  - simpl. extends_tac.
  - destruct fn as [| | |uc d| | | | |]; try apply extends_none.
    destruct uc; try apply extends_none.
    destruct d as [| |dc f| | | | | |]; try apply extends_none.
    destruct dc; try apply extends_none.
    destruct (String.eqb f "printf") eqn:Ef.
    + destruct args as [|a0 rest]; [simpl; rewrite Ef; apply extends_none|].
      inversion IHargs as [|? ? _ Hrest]; subst.
      apply extends_eval_list in Hrest.
      destruct a0 as [| | |uc a0| | | | |];
        try (simpl; rewrite Ef; apply extends_none).
      destruct uc; try (simpl; rewrite Ef; apply extends_none).
      destruct a0; try (simpl; rewrite Ef; apply extends_none).
      simpl. rewrite Ef. apply extends_bind; [exact Hrest|]. intros vs.
      extends_tac. intros x tr H. now injection H as <- <-.
    + apply extends_eval_list in IHargs.
      simpl. rewrite Ef. apply extends_bind; [exact IHargs|]. intros vs.
      destruct (fenv f) as [g|]; [|apply extends_none].
      intros a tr H. now injection H as <- <-.
  - exact IH.
  - now apply extends_eval_stmts.
Qed.

End Stateless.

(* ================================================================= *)
(** ** Logical AND *)

(** C2.  The code generated for a logical AND ([TRUTH_ANDIF_EXPR] or
    [TRUTH_AND_EXPR]) tests the left operand: when it is false the code
    for the left operand runs and the right operand does not occur in what
    is run; when it is true the code for the right operand runs between
    the texts "(...) && (" and ")".  For [x == 1 && y == 2] the failed
    assertion prints "0 == 1" when [x = 0] (with [y] not even bound) and
    "(...) && (5 == 2)" when [x = 1] and [y = 5]. *)
Theorem and_branches_on_left venv fenv (c : binary_code) (l r : tree) :
  is_and c = true ->
  run venv fenv (diag (Binary c l r)) =
    match eval venv fenv l with
    | None => None
    | Some (v, tr) =>
        then_ (Some tr)
          (if v =? 0 then run venv fenv (diag l)
           else then_ (writes "(...) && (")
                  (then_ (run venv fenv (diag r)) (writes ")")))
    end
  /\ printed (env_of [("x", 0)]) no_functions (runtime_assert x_and_y)
     = Some "0 == 1"
  /\ printed (env_of [("x", 1); ("y", 5)]) no_functions (runtime_assert x_and_y)
     = Some "(...) && (5 == 2)".
Proof.
  intros H. split; [now apply run_diag_and|]. split; reflexivity.
Qed.

Lemma and_branches_on_left_witness :
  is_and TRUTH_ANDIF_EXPR = true /\
  run (env_of [("x", 0)]) no_functions
      (diag (Binary TRUTH_ANDIF_EXPR (Binary EQ_EXPR (var "x") (Cst 1))
                                     (Binary EQ_EXPR (var "y") (Cst 2))))
  = Some [EvOut "0"; EvOut " == "; EvOut "1"].
Proof.
  split; [reflexivity|].
  destruct (and_branches_on_left (env_of [("x", 0)]) no_functions
              TRUTH_ANDIF_EXPR (Binary EQ_EXPR (var "x") (Cst 1))
              (Binary EQ_EXPR (var "y") (Cst 2)) eq_refl) as [H _].
  rewrite H. reflexivity.
Defined.

(* ================================================================= *)
(** ** Logical OR *)

(** C3.  The code generated for a logical OR ([TRUTH_ORIF_EXPR] or
    [TRUTH_OR_EXPR]) tests the whole OR: when it is true nothing is
    written, when it is false both operands are rendered as
    "(" left ") || (" right ")".  For [x == 1 || y == 2] the failed
    assertion prints "(0 == 1) || (0 == 2)" when [x = 0] and [y = 0], and
    with [x = 1] the rewritten assertion produces no event at all. *)
Theorem or_branches_on_whole venv fenv (c : binary_code) (l r : tree) :
  is_or c = true ->
  run venv fenv (diag (Binary c l r)) =
    match eval venv fenv (Binary c l r) with
    | None => None
    | Some (v, tr) =>
        then_ (Some tr)
          (if v =? 0
           then then_ (writes "(")
                  (then_ (run venv fenv (diag l))
                     (then_ (writes ") || (")
                        (then_ (run venv fenv (diag r)) (writes ")"))))
           else Some [])
    end
  /\ printed (env_of [("x", 0); ("y", 0)]) no_functions (runtime_assert x_or_y)
     = Some "(0 == 1) || (0 == 2)"
  /\ run_opt (env_of [("x", 1)]) no_functions (runtime_assert x_or_y) = Some []
  /\ run (env_of [("x", 1)]) no_functions (diag x_or_y) = Some [].
Proof.
  intros H. split; [now apply run_diag_or|]. repeat split; reflexivity.
Qed.

Lemma or_branches_on_whole_witness :
  is_or TRUTH_ORIF_EXPR = true /\
  run (env_of [("x", 0); ("y", 0)]) no_functions (diag x_or_y)
  = Some [EvOut "("; EvOut "0"; EvOut " == "; EvOut "1"; EvOut ") || (";
          EvOut "0"; EvOut " == "; EvOut "2"; EvOut ")"].
Proof.
  split; [reflexivity|].
  destruct (or_branches_on_whole (env_of [("x", 0); ("y", 0)]) no_functions
              TRUTH_ORIF_EXPR (Binary EQ_EXPR (var "x") (Cst 1))
              (Binary EQ_EXPR (var "y") (Cst 2)) eq_refl) as [H _].
  unfold x_or_y. rewrite H. reflexivity.
Defined.

(* ================================================================= *)
(** ** Operands that evaluation skips *)

Section StatePreserving.

Variable state : Type.
Variable m : Machine.machine state.

Local Abbreviation keeps := (@Machine.keeps state _).

Lemma keeps_ret {A : Type} (a : A) : keeps (Machine.ret a).
Proof. intros st a' st' tr H. now injection H as _ <- _. Qed.

Lemma keeps_fail {A : Type} : keeps (@Machine.fail state A).
Proof. intros st a st' tr H. discriminate. Qed.

Lemma keeps_lift {A : Type} (o : option A) : keeps (Machine.lift o).
Proof.
  intros st a st' tr H. unfold Machine.lift in H.
  destruct o; [now injection H as _ <- _ | discriminate].
Qed.

Lemma keeps_emit (e : event) : keeps (@Machine.emit state e).
Proof. intros st a st' tr H. now injection H as _ <- _. Qed.

Lemma keeps_read (x : string) : keeps (Machine.read m x).
Proof.
  intros st a st' tr H. unfold Machine.read in H.
  destruct (Machine.venv m st x); [now injection H as _ <- _ | discriminate].
Qed.

Lemma keeps_bind {A B : Type} (c : Machine.comp state A)
      (k : A -> Machine.comp state B) :
  keeps c -> (forall a, keeps (k a)) -> keeps (Machine.bind c k).
Proof.
  intros Hc Hk st b st' tr H. unfold Machine.bind in H.
  destruct (c st) as [[[a st1] t1]|] eqn:Ec; [|discriminate].
  destruct (k a st1) as [[[b' st2] t2]|] eqn:Ek; [|discriminate].
  injection H as _ <- _.
  apply Hc in Ec. apply Hk in Ek. congruence.
Qed.

Lemma keeps_if {A : Type} (b : bool) (c1 c2 : Machine.comp state A) :
  keeps c1 -> keeps c2 -> keeps (if b then c1 else c2).
Proof. now destruct b. Qed.

Hypothesis Hpure : Machine.state_preserving m.

Lemma keeps_enter (f : string) (g : list Z -> state -> Z * state) (vs : list Z) :
  Machine.fenv m f = Some g -> keeps (Machine.enter g vs).
Proof.
  intros Hf st a st' tr H. unfold Machine.enter in H.
  pose proof (Hpure f g vs st Hf) as Hs.
  destruct (g vs st) as [z s']. injection H as _ <- _. exact Hs.
Qed.

Ltac keeps_tac :=
  repeat first
    [ assumption
    | apply keeps_ret | apply keeps_fail | apply keeps_lift
    | apply keeps_emit | apply keeps_read
    | apply keeps_if
    | apply keeps_bind; [|intros ?] ].

Lemma keeps_eval_args (l : list tree) :
  Forall (fun a => keeps (Machine.eval m a)) l -> keeps (Machine.eval_args m l).
Proof.
  induction 1 as [|a l Ha _ IH]; simpl; [apply keeps_ret|].
  destruct (Machine.order m); keeps_tac.
Qed.

Lemma keeps_eval_stmts (l : list tree) :
  Forall (fun a => keeps (Machine.eval m a)) l -> keeps (Machine.eval_stmts m l).
Proof. induction 1 as [|a l Ha _ IH]; simpl; keeps_tac. Qed.

(** Where no function changes the state, no evaluation does. *)
Lemma keeps_eval (t : tree) : keeps (Machine.eval m t).
Proof.
  induction t as [z | s | dc name | uc a IHa | bc a b IHa IHb | c a b IHc IHa IHb
                  | fn args _ IHargs | body IH | l IH] using tree_nested_ind.
  - apply keeps_ret.
  - apply keeps_fail.
  - destruct dc; simpl; keeps_tac.
  - destruct uc; simpl; keeps_tac. destruct a; keeps_tac.
  - destruct bc; simpl; keeps_tac.
  - simpl. keeps_tac.
  - destruct fn as [| | |uc d| | | | |]; try apply keeps_fail.
    destruct uc; try apply keeps_fail.
    destruct d as [| |dc f| | | | | |]; try apply keeps_fail.
    destruct dc; try apply keeps_fail.
    destruct (String.eqb f "printf") eqn:Ef.
    + destruct args as [|a0 rest]; [simpl; rewrite Ef; apply keeps_fail|].
      inversion IHargs as [|? ? _ Hrest]; subst.
      apply keeps_eval_args in Hrest.
      destruct a0 as [| | |uc a0| | | | |];
        try (simpl; rewrite Ef; apply keeps_fail).
      destruct uc; try (simpl; rewrite Ef; apply keeps_fail).
      destruct a0; try (simpl; rewrite Ef; apply keeps_fail).
      simpl. rewrite Ef. apply keeps_bind; [exact Hrest|]. intros vs. keeps_tac.
    + apply keeps_eval_args in IHargs.
      simpl. rewrite Ef. apply keeps_bind; [exact IHargs|]. intros vs.
      destruct (Machine.fenv m f) as [g|] eqn:Eg.
      * intros st a st' tr H.
        unfold Machine.bind, Machine.lift, Machine.emit in H.
        destruct (Machine.enter g vs st) as [[[z s2] t2]|] eqn:Ee; [|discriminate].
        injection H as _ <- _. now apply (keeps_enter f g vs Eg) in Ee.
      * keeps_tac.
  - exact IH.
  - now apply keeps_eval_stmts.
Qed.

Lemma preserving_eval (t : tree) (st st' : state) (v : Z) (tr : trace) :
  Machine.eval m t st = Some (v, st', tr) -> st' = st.
Proof. apply keeps_eval. Qed.

Lemma preserving_run (t : tree) (st st' : state) (tr : trace) :
  Machine.run m t st = Some (st', tr) -> st' = st.
Proof.
  unfold Machine.run. destruct (Machine.eval m t st) as [[[v s1] t1]|] eqn:E;
    [|discriminate].
  intros H. injection H as <- _. now apply preserving_eval in E.
Qed.

(** *** The laws of the printing code when the state does not change *)

Variable st : state.

Local Abbreviation eval := (Machine.outcome m st).
Local Abbreviation run := (Machine.events m st).

Lemma eval_of_outcome (t : tree) :
  Machine.eval m t st =
  match eval t with Some (v, tr) => Some (v, st, tr) | None => None end.
Proof.
  unfold Machine.outcome.
  destruct (Machine.eval m t st) as [[[v s1] tr]|] eqn:E; [|reflexivity].
  now rewrite (preserving_eval _ _ _ _ _ E).
Qed.

Lemma run_of_events (t : tree) :
  Machine.run m t st =
  match run t with Some tr => Some (st, tr) | None => None end.
Proof.
  unfold Machine.events.
  destruct (Machine.run m t st) as [[s1 tr]|] eqn:E; [|reflexivity].
  now rewrite (preserving_run _ _ _ _ E).
Qed.

Lemma outcome_Binary (c : binary_code) (a b : tree) :
  eval (Binary c a b) = Machine.binary_outcome c (eval a) (eval b).
Proof.
  unfold Machine.outcome at 1.
  assert (Ha := eval_of_outcome a). assert (Hb := eval_of_outcome b).
  destruct c; simpl; unfold Machine.bind, Semantics.bind; rewrite Ha;
    destruct (eval a) as [[x t1]|]; try reflexivity;
    try destruct (x =? 0); try reflexivity; rewrite Hb;
    destruct (eval b) as [[y t2]|]; try reflexivity;
    unfold Machine.lift, Semantics.lift; simpl;
    try destruct (y =? 0); reflexivity.
Qed.

Lemma events_diag_and (c : binary_code) (l r : tree) :
  is_and c = true ->
  run (diag (Binary c l r)) =
  match eval l with
  | None => None
  | Some (v, tr) =>
      then_ (Some tr)
        (if v =? 0 then run (diag l)
         else then_ (Properties.writes "(...) && (")
                (then_ (run (diag r)) (Properties.writes ")")))
  end.
Proof.
  intros H. unfold Machine.events at 1.
  rewrite machine_run_diag_and, eval_of_outcome by assumption.
  destruct (eval l) as [[v tr]|]; [|reflexivity].
  destruct (v =? 0); cbn [Machine.andthen Machine.writes Machine.prefix];
    rewrite ?run_of_events.
  - now destruct (run (diag l)).
  - now destruct (run (diag r)).
Qed.

Lemma events_diag_or (c : binary_code) (l r : tree) :
  is_or c = true ->
  run (diag (Binary c l r)) =
  match eval (Binary c l r) with
  | None => None
  | Some (v, tr) =>
      then_ (Some tr)
        (if v =? 0
         then then_ (Properties.writes "(")
                (then_ (run (diag l))
                   (then_ (Properties.writes ") || (")
                      (then_ (run (diag r)) (Properties.writes ")"))))
         else Some [])
  end.
Proof.
  intros H. unfold Machine.events at 1.
  rewrite machine_run_diag_or, eval_of_outcome by assumption.
  destruct (eval (Binary c l r)) as [[v tr]|]; [|reflexivity].
  destruct (v =? 0); cbn [Machine.andthen Machine.writes Machine.prefix];
    [|reflexivity].
  rewrite run_of_events.
  destruct (run (diag l)) as [tl|]; [|reflexivity].
  cbn [Machine.andthen Machine.writes Machine.prefix].
  rewrite run_of_events.
  destruct (run (diag r)) as [t2|]; [|reflexivity].
  cbn [Machine.andthen Machine.writes Machine.prefix then_ Properties.writes].
  now rewrite <- !app_assoc.
Qed.

Lemma events_diag_binary (c : binary_code) (op : string) (l r : tree) :
  is_and c = false -> is_or c = false -> glyph c = Some op ->
  run (diag (Binary c l r)) =
  then_ (run (diag l))
        (then_ (Properties.writes (" " ++ op ++ " ")%string) (run (diag r))).
Proof.
  intros Ha Ho Hg. unfold Machine.events at 1.
  rewrite (machine_run_diag_binary _ m c op) by assumption.
  rewrite run_of_events.
  destruct (run (diag l)) as [tl|]; [|reflexivity].
  cbn [Machine.andthen Machine.writes Machine.prefix].
  rewrite run_of_events.
  destruct (run (diag r)) as [t2|]; [|reflexivity].
  cbn [Machine.andthen Machine.writes Machine.prefix then_ Properties.writes].
  now rewrite <- !app_assoc.
Qed.

Lemma events_diag_leaf (e : tree) :
  get_expr_op_repr e = None ->
  run (diag e) =
  match eval e with
  | None => None
  | Some (v, tr) => Some (tr ++ [EvOut (string_of_Z v)])
  end.
Proof.
  intros H. unfold Machine.events at 1.
  rewrite machine_run_diag_leaf, eval_of_outcome by assumption.
  now destruct (eval e) as [[v tr]|].
Qed.

Lemma outcome_Binary_congr (c : binary_code) (l l' r r' : tree) :
  eval l = eval l' -> eval r = eval r' ->
  eval (Binary c l r) = eval (Binary c l' r').
Proof. intros Hl Hr. rewrite !outcome_Binary. now rewrite Hl, Hr. Qed.

(** The four cases of the generated code depend on the operands only
    through their evaluation and their own generated code. *)
Lemma events_diag_Binary_congr (c : binary_code) (l l' r r' : tree) :
  eval l = eval l' -> eval (Binary c l r) = eval (Binary c l' r') ->
  run (diag l) = run (diag l') ->
  (is_and c = true -> eval l = None \/ (exists tr, eval l = Some (0, tr)) \/
                      run (diag r) = run (diag r')) ->
  (is_and c = false ->
     (exists v tr, eval (Binary c l r) = Some (v, tr) /\ v <> 0 /\ is_or c = true) \/
     (eval r = eval r' /\ run (diag r) = run (diag r'))) ->
  run (diag (Binary c l r)) = run (diag (Binary c l' r')).
Proof.
  intros Hl Hb Hdl Hand Hother.
  destruct (is_and c) eqn:Ea.
  - rewrite !events_diag_and by assumption. rewrite <- Hl, <- Hdl.
    destruct (Hand eq_refl) as [Hn | [[tr Hz] | Hr]].
    + now rewrite Hn.
    + now rewrite Hz.
    + now rewrite Hr.
  - destruct (is_or c) eqn:Eo.
    + rewrite !events_diag_or by assumption. rewrite <- Hb, <- Hdl.
      destruct (Hother eq_refl) as [(v & tr & Hv & Hnz & _) | [_ Hr]].
      * rewrite Hv. apply Z.eqb_neq in Hnz. now rewrite Hnz.
      * now rewrite Hr.
    + destruct (Hother eq_refl) as [(v & tr & _ & _ & Habs) | [Her Hr]];
        [discriminate|].
      destruct (glyph c) as [op|] eqn:Eg.
      * rewrite !(events_diag_binary c op) by assumption.
        now rewrite Hdl, Hr.
      * rewrite !events_diag_leaf by (rewrite get_expr_op_repr_glyph; assumption).
        now rewrite Hb.
Qed.

Lemma skipped_replaced_same_events (c c' : tree) :
  Machine.skipped_replaced m st c c' ->
  eval c = eval c' /\ run (diag c) = run (diag c').
Proof.
  induction 1 as [t | l l' r r' s1 tr _ [IHe IHd] Hz
                    | l l' r r' v s1 tr _ [IHe IHd] Hv Hnz
                    | c l l' r r' _ [IHle IHld] _ [IHre IHrd]].
  - split; reflexivity.
  - assert (Hz' : eval l = Some (0, tr))
      by (unfold Machine.outcome; now rewrite Hz).
    assert (He : eval (Binary TRUTH_ANDIF_EXPR l r)
                 = eval (Binary TRUTH_ANDIF_EXPR l' r')).
    { rewrite !outcome_Binary. simpl. rewrite <- IHe, Hz'. reflexivity. }
    split; [exact He|].
    apply events_diag_Binary_congr; try assumption.
    + intros _. right. left. now exists tr.
    + discriminate.
  - assert (Hv' : eval l = Some (v, tr))
      by (unfold Machine.outcome; now rewrite Hv).
    assert (Hb : (v =? 0) = false) by now apply Z.eqb_neq.
    assert (He : eval (Binary TRUTH_ORIF_EXPR l r)
                 = eval (Binary TRUTH_ORIF_EXPR l' r')).
    { rewrite !outcome_Binary. simpl. rewrite <- IHe, Hv'.
      unfold Semantics.bind. now rewrite Hb. }
    split; [exact He|].
    apply events_diag_Binary_congr; try assumption.
    + discriminate.
    + intros _. left. exists 1, (tr ++ []). repeat split; [|lia].
      rewrite outcome_Binary. simpl. rewrite Hv'.
      unfold Semantics.bind. now rewrite Hb.
  - assert (He : eval (Binary c l r) = eval (Binary c l' r'))
      by now apply outcome_Binary_congr.
    split; [exact He|].
    apply events_diag_Binary_congr; try assumption.
    + intros _. now right; right.
    + intros _. now right.
Qed.

(** Whatever the condition evaluated, the printing code can evaluate:
    it is defined whenever the condition is. *)
Lemma events_diag_defined (c : tree) :
  forall v tr, eval c = Some (v, tr) -> exists tr', run (diag c) = Some tr'.
Proof.
  induction c as [z | s | dc name | uc a _ | bc l IHl r IHr
                  | ci _ a _ b _ | fn _ args | body _ | stmts];
    intros v tr H;
    try (rewrite events_diag_leaf by reflexivity; rewrite H; eauto; fail).
  assert (Hl : forall x t1, eval l = Some (x, t1) ->
               exists tl, run (diag l) = Some tl) by eauto.
  assert (Hr : forall y t2, eval r = Some (y, t2) ->
               exists tr', run (diag r) = Some tr') by eauto.
  clear IHl IHr.
  destruct (is_and bc) eqn:Ea; [|destruct (is_or bc) eqn:Eo].
  - rewrite events_diag_and by assumption. rewrite outcome_Binary in H.
    destruct bc; try discriminate; simpl in H; unfold Semantics.bind in H;
      destruct (eval l) as [[x t1]|] eqn:E1; try discriminate;
      destruct (Hl _ _ eq_refl) as [tl ->];
      destruct (x =? 0) eqn:Ex; try (eexists; reflexivity);
      destruct (eval r) as [[y t2]|] eqn:E2; try discriminate;
      destruct (Hr _ _ eq_refl) as [tr' ->]; eexists; reflexivity.
  - rewrite events_diag_or by assumption. rewrite H.
    destruct (v =? 0) eqn:Ev; [|eexists; reflexivity].
    rewrite outcome_Binary in H.
    destruct bc; try discriminate; simpl in H; unfold Semantics.bind in H;
      destruct (eval l) as [[x t1]|] eqn:E1; try discriminate;
      destruct (Hl _ _ eq_refl) as [tl ->].
    + destruct (eval r) as [[y t2]|] eqn:E2; try discriminate.
      destruct (Hr _ _ eq_refl) as [tr' ->]. eexists; reflexivity.
    + destruct (x =? 0) eqn:Ex.
      * destruct (eval r) as [[y t2]|] eqn:E2; try discriminate.
        destruct (Hr _ _ eq_refl) as [tr' ->]. eexists; reflexivity.
      * injection H as <- _. discriminate.
  - assert (Hboth : exists x t1 y t2,
               eval l = Some (x, t1) /\ eval r = Some (y, t2)).
    { rewrite outcome_Binary in H.
      destruct bc; try discriminate; simpl in H; unfold Semantics.bind in H;
        destruct (eval l) as [[x t1]|]; try discriminate;
        destruct (eval r) as [[y t2]|]; try discriminate;
        now exists x, t1, y, t2. }
    destruct Hboth as (x & t1 & y & t2 & E1 & E2).
    destruct (glyph bc) as [op|] eqn:Eg.
    + rewrite (events_diag_binary bc op) by assumption.
      destruct (Hl _ _ E1) as [tl ->]. destruct (Hr _ _ E2) as [tr' ->].
      eexists; reflexivity.
    + rewrite events_diag_leaf by (rewrite get_expr_op_repr_glyph; assumption).
      rewrite H. eauto.
Qed.

(** The printing code of a condition that evaluated to false writes at
    least one character. *)
Lemma events_diag_write_something (c : tree) :
  forall tr, eval c = Some (0, tr) ->
             exists tr', run (diag c) = Some tr' /\ stdout tr' <> EmptyString.
Proof.
  assert (Hne : forall (a b : trace) (s : string),
             s <> EmptyString -> stdout (a ++ EvOut s :: b) <> EmptyString).
  { intros a b s Hs. rewrite stdout_app. simpl.
    destruct (stdout a); [|discriminate]. simpl.
    destruct s; [contradiction | discriminate]. }
  induction c as [z | s | dc name | uc a _ | bc l IHl r IHr
                  | ci _ a _ b _ | fn _ args | body _ | stmts];
    intros tr H;
    try (rewrite events_diag_leaf by reflexivity; rewrite H;
         eexists; split; [reflexivity|];
         apply (Hne tr [] (string_of_Z 0)); discriminate).
  destruct (is_and bc) eqn:Ea; [|destruct (is_or bc) eqn:Eo].
  - rewrite events_diag_and by assumption. rewrite outcome_Binary in H.
    destruct bc; try discriminate; simpl in H; unfold Semantics.bind in H;
      destruct (eval l) as [[x t1]|] eqn:E1; try discriminate;
      destruct (x =? 0) eqn:Ex.
    + apply Z.eqb_eq in Ex. subst x.
      destruct (IHl _ eq_refl) as (tl & -> & Hl).
      eexists; split; [reflexivity|]. rewrite stdout_app.
      destruct (stdout t1); [exact Hl | discriminate].
    + destruct (eval r) as [[y t2]|] eqn:E2; [|discriminate].
      destruct (events_diag_defined r y t2 E2) as [tr' ->].
      eexists; split; [reflexivity|].
      apply (Hne t1 (tr' ++ [EvOut ")"]) "(...) && ("). discriminate.
    + apply Z.eqb_eq in Ex. subst x.
      destruct (IHl _ eq_refl) as (tl & -> & Hl).
      eexists; split; [reflexivity|]. rewrite stdout_app.
      destruct (stdout t1); [exact Hl | discriminate].
    + destruct (eval r) as [[y t2]|] eqn:E2; [|discriminate].
      destruct (events_diag_defined r y t2 E2) as [tr' ->].
      eexists; split; [reflexivity|].
      apply (Hne t1 (tr' ++ [EvOut ")"]) "(...) && ("). discriminate.
  - rewrite events_diag_or by assumption. rewrite H.
    assert (Hboth : exists x t1 y t2,
               eval l = Some (x, t1) /\ eval r = Some (y, t2)).
    { rewrite outcome_Binary in H.
      destruct bc; try discriminate; simpl in H; unfold Semantics.bind in H;
        destruct (eval l) as [[x t1]|]; try discriminate.
      - destruct (eval r) as [[y t2]|]; try discriminate. now exists x, t1, y, t2.
      - destruct (x =? 0); [|discriminate].
        destruct (eval r) as [[y t2]|]; try discriminate. now exists x, t1, y, t2. }
    destruct Hboth as (x & t1 & y & t2 & E1 & E2).
    destruct (events_diag_defined l x t1 E1) as [tl ->].
    destruct (events_diag_defined r y t2 E2) as [tr' ->].
    eexists; split; [reflexivity|].
    apply (Hne tr (tl ++ EvOut ") || (" :: tr' ++ [EvOut ")"]) "("). discriminate.
  - assert (Hboth : exists x t1 y t2,
               eval l = Some (x, t1) /\ eval r = Some (y, t2)).
    { rewrite outcome_Binary in H.
      destruct bc; try discriminate; simpl in H; unfold Semantics.bind in H;
        destruct (eval l) as [[x t1]|]; try discriminate;
        destruct (eval r) as [[y t2]|]; try discriminate;
        now exists x, t1, y, t2. }
    destruct Hboth as (x & t1 & y & t2 & E1 & E2).
    destruct (glyph bc) as [op|] eqn:Eg.
    + rewrite (events_diag_binary bc op) by assumption.
      destruct (events_diag_defined l x t1 E1) as [tl ->].
      destruct (events_diag_defined r y t2 E2) as [tr' ->].
      eexists; split; [reflexivity|].
      apply (Hne tl tr' (" " ++ op ++ " ")%string). discriminate.
    + rewrite events_diag_leaf by (rewrite get_expr_op_repr_glyph; assumption).
      rewrite H. eexists; split; [reflexivity|].
      apply (Hne tr [] (string_of_Z 0)). discriminate.
Qed.

End StatePreserving.




(** With [p = 0], [p != 0 && 10 % p == 5] skips a division by zero; the
    printing code of the run-time rewrite skips it too, that of the
    one-printf rewrite does not. *)
Example guarded_rem_with_state :
  Machine.state_preserving
    (Machine.stateless (env_of [("p", 0)]) no_functions Machine.RightToLeft) /\
  Machine.skipped_replaced
    (Machine.stateless (env_of [("p", 0)]) no_functions Machine.RightToLeft) tt
    guarded_rem
    (Binary TRUTH_ANDIF_EXPR (Binary NE_EXPR (var "p") (Cst 0)) (Str "never read")) /\
  Machine.printed
    (Machine.stateless (env_of [("p", 0)]) no_functions Machine.RightToLeft)
    (runtime_assert guarded_rem) tt
  = Some "0 != 0"%string /\
  Machine.printed
    (Machine.stateless (env_of [("p", 0)]) no_functions Machine.RightToLeft)
    (complex_assert guarded_rem) tt
  = None.
Proof.
  split; [|split; [|split; reflexivity]].
  - intros f g vs st H. discriminate.
  - apply (Machine.sr_and_skipped _ _ _ _ _ _ _ tt []);
      [apply Machine.sr_same | reflexivity].
Qed.

Example guarded_rem_prints_left_only :
  eval (env_of [("p", 0)]) no_functions
       (Binary EQ_EXPR (Binary TRUNC_MOD_EXPR (Cst 10) (var "p")) (Cst 5)) = None
  /\ printed (env_of [("p", 0)]) no_functions (runtime_assert guarded_rem)
     = Some "0 != 0"
  /\ printed (env_of [("p", 0)]) no_functions (complex_assert guarded_rem) = None.
Proof. repeat split; reflexivity. Qed.

(* ================================================================= *)
(** ** The one-printf rewrite: format and arguments *)

Lemma length_append (a b : string) :
  String.length (a ++ b)%string = (String.length a + String.length b)%nat.
Proof. induction a as [|x a IH]; simpl; [reflexivity | now rewrite IH]. Qed.

Section OnePrintf.

Import ComplexRewrite.

Lemma create_expression_repr_binary (c : binary_code) (op : string) (l r : tree)
      (args : list tree) :
  glyph c = Some op ->
  create_expression_repr (Binary c l r) args =
  let (left_, args1) := create_expression_repr l args in
  let (right_, args2) := create_expression_repr r args1 in
  (snprintf 1024 ("(" ++ left_ ++ ") " ++ op ++ " (" ++ right_ ++ ")")%string,
   args2).
Proof.
  intros Hg. destruct c; try discriminate; injection Hg as <-; reflexivity.
Qed.

Lemma create_expression_repr_leaf (e : tree) (args : list tree) :
  get_expr_op_repr e = None ->
  create_expression_repr e args = ("%d"%string, args ++ [e]).
Proof.
  destruct e; try reflexivity. destruct c; try discriminate; reflexivity.
Qed.

Lemma leaves_binary (c : binary_code) (op : string) (l r : tree) :
  glyph c = Some op -> leaves (Binary c l r) = leaves l ++ leaves r.
Proof. intros Hg. destruct c; try discriminate; reflexivity. Qed.

Lemma leaves_leaf (e : tree) : get_expr_op_repr e = None -> leaves e = [e].
Proof.
  destruct e; try reflexivity. destruct c; try discriminate; reflexivity.
Qed.

Lemma full_repr_binary (c : binary_code) (op : string) (l r : tree) :
  glyph c = Some op ->
  full_repr (Binary c l r) =
  ("(" ++ full_repr l ++ ") " ++ op ++ " (" ++ full_repr r ++ ")")%string.
Proof.
  intros Hg. destruct c; try discriminate; injection Hg as <-; reflexivity.
Qed.

Lemma full_repr_leaf (e : tree) :
  get_expr_op_repr e = None -> full_repr e = "%d"%string.
Proof.
  destruct e; try reflexivity. destruct c; try discriminate; reflexivity.
Qed.

(** The walk pushes the leaves, in order, after what was pushed before. *)
Lemma create_expression_repr_args (e : tree) :
  forall args, snd (create_expression_repr e args) = args ++ leaves e.
Proof.
  induction e as [z | s | dc name | uc a _ | bc l IHl r IHr
                  | ci _ a _ b _ | fn _ args0 | body _ | stmts];
    intros args; try reflexivity.
  destruct (glyph bc) as [op|] eqn:Eg.
  - rewrite (create_expression_repr_binary bc op) by assumption.
    rewrite (leaves_binary bc op) by assumption.
    specialize (IHl args).
    destruct (create_expression_repr l args) as [L a1]. cbn [snd] in IHl. subst a1.
    specialize (IHr (args ++ leaves l)).
    destruct (create_expression_repr r (args ++ leaves l)) as [R a2].
    cbn [snd] in *. subst a2. now rewrite app_assoc.
  - rewrite create_expression_repr_leaf, leaves_leaf
      by (rewrite get_expr_op_repr_glyph; assumption).
    reflexivity.
Qed.

(** A format that fits the buffer is not cut. *)
Lemma create_expression_repr_fits (e : tree) :
  forall args, (String.length (full_repr e) <= 1023)%nat ->
               fst (create_expression_repr e args) = full_repr e.
Proof.
  induction e as [z | s | dc name | uc a _ | bc l IHl r IHr
                  | ci _ a _ b _ | fn _ args0 | body _ | stmts];
    intros args Hfit; try reflexivity.
  destruct (glyph bc) as [op|] eqn:Eg.
  - rewrite (create_expression_repr_binary bc op) by assumption.
    rewrite (full_repr_binary bc op) in * by assumption.
    assert (Hlen := Hfit). rewrite !length_append in Hlen. simpl in Hlen.
    specialize (IHl args ltac:(lia)).
    destruct (create_expression_repr l args) as [L a1]. cbn [fst] in IHl. subst L.
    specialize (IHr a1 ltac:(lia)).
    destruct (create_expression_repr r a1) as [R a2]. cbn [fst] in IHr. subst R.
    unfold snprintf. cbn [fst]. apply strn_take_fits. exact Hfit.
  - rewrite create_expression_repr_leaf, full_repr_leaf
      by (rewrite get_expr_op_repr_glyph; assumption).
    reflexivity.
Qed.

(** In the unbounded format there is one conversion per leaf. *)
Lemma count_placeholders_full_repr (e : tree) :
  forall k, count_placeholders (full_repr e ++ k)%string
            = (length (leaves e) + count_placeholders k)%nat.
Proof.
  induction e as [z | s | dc name | uc a _ | bc l IHl r IHr
                  | ci _ a _ b _ | fn _ args0 | body _ | stmts];
    intros k; try reflexivity.
  destruct (glyph bc) as [op|] eqn:Eg.
  - rewrite (full_repr_binary bc op), (leaves_binary bc op) by assumption.
    rewrite length_app.
    rewrite !append_assoc. simpl.
    rewrite IHl. simpl.
    destruct bc; try discriminate; injection Eg as <-; simpl;
      rewrite IHr; simpl; lia.
  - rewrite full_repr_leaf, leaves_leaf
      by (rewrite get_expr_op_repr_glyph; assumption).
    reflexivity.
Qed.

End OnePrintf.

(** C5, as stated, fails: for a sum of 115 operands the format is cut at
    1023 characters and holds 114 conversions, while all 115 leaves are
    passed as arguments. *)
Lemma arguments_match_format_counterexample :
  count_placeholders (complex_format (sum_chain 114))
  <> length (complex_args (sum_chain 114)).
Proof. vm_compute. discriminate. Qed.

(** C5, amended.  The arguments of the generated [printf] call are, after
    the format, exactly the leaf expressions of the condition in
    left-to-right order, for every condition.  They match the [%d]
    conversions of the format one to one whenever the format fits the
    1024-byte buffer of [create_expression_repr]; a longer format is cut at
    1023 characters, and the arguments are still all the leaves. *)
Theorem printf_arguments_are_leaves (c t e : tree) :
  (forall args,
     snd (ComplexRewrite.create_expression_repr c args) = args ++ leaves c) /\
  ComplexRewrite.patch_assert (Cond c t e) =
    Some (Cond c t
            (build_call_expr the_printf
               (Unary ADDR_EXPR (Str (complex_format c)) :: leaves c))) /\
  ((String.length (full_repr c) <= 1023)%nat ->
   complex_format c = full_repr c /\
   count_placeholders (complex_format c) = length (leaves c)).
Proof.
  split; [apply create_expression_repr_args|]. split.
  - unfold ComplexRewrite.patch_assert, complex_format.
    cbn [COND_EXPR_COND].
    pose proof (create_expression_repr_args c []) as Ha.
    destruct (ComplexRewrite.create_expression_repr c []) as [fmt v].
    cbn [fst snd] in *. subst v.
    cbn [vec_safe_insert firstn skipn app set_COND_EXPR_ELSE].
    now rewrite build_string_literal_strlen.
  - intros Hfit.
    assert (Hf : complex_format c = full_repr c)
      by now apply create_expression_repr_fits.
    split; [exact Hf|]. rewrite Hf.
    rewrite <- (append_empty_r (full_repr c)).
    rewrite count_placeholders_full_repr. simpl. lia.
Qed.

Lemma printf_arguments_are_leaves_witness :
  (String.length (full_repr call_cond) <= 1023)%nat /\
  count_placeholders (complex_format call_cond) = length (leaves call_cond).
Proof.
  assert (H : (String.length (full_repr call_cond) <= 1023)%nat)
    by (vm_compute; lia).
  split; [exact H|].
  apply (printf_arguments_are_leaves call_cond build_empty_stmt assert_fail_call).
  exact H.
Defined.

(* ================================================================= *)
(** ** How often operands are evaluated *)

Lemma rem_2_is_zero (a : Z) : (wrap (Z.rem a 2) =? 0) = Z.even a.
Proof.
  assert (H := Z.rem_bound_abs a 2 ltac:(lia)).
  assert (Hw : wrap (Z.rem a 2) = Z.rem a 2).
  { unfold wrap. rewrite Z.mod_small; lia. }
  rewrite Hw.
  destruct (Z.even a) eqn:E.
  - apply Z.even_spec in E. destruct E as [k ->].
    rewrite Z.mul_comm, Z.rem_mul by lia. reflexivity.
  - apply Z.eqb_neq. intros Hr.
    assert (Hd := Z.quot_rem' a 2). rewrite Hr in Hd.
    assert (Z.even a = true) by (apply Z.even_spec; exists (Z.quot a 2); lia).
    congruence.
Qed.

Lemma machine_runtime_call_count (g : Z -> Z) (o : Machine.arg_order) :
  Machine.calls_of (Machine.stateless (env_of [("n", 5)]) (only_call g) o)
                   "call" (runtime_assert call_cond) tt
  = Some (if Z.even (g 5) then 2%nat else 3%nat).
Proof.
  unfold Machine.calls_of, Machine.run_opt, runtime_assert,
    RuntimeRewrite.patch_assert.
  unfold Machine.run, diag.
  destruct o; cbn -[Z.rem wrap string_of_Z Z.eqb];
  unfold Machine.bind, Machine.read, Machine.ret, Machine.lift, Machine.emit,
    Machine.enter, Machine.fail;
  cbn -[Z.rem wrap string_of_Z Z.eqb];
  change (2 =? 0) with false; cbn -[Z.rem wrap string_of_Z Z.eqb];
  rewrite rem_2_is_zero;
  destruct (Z.even (g 5)); reflexivity.
Qed.

Lemma machine_complex_call_count (g : Z -> Z) (o : Machine.arg_order) :
  Machine.calls_of (Machine.stateless (env_of [("n", 5)]) (only_call g) o)
                   "call" (complex_assert call_cond) tt
  = Some 2%nat.
Proof.
  unfold Machine.calls_of, Machine.run_opt, complex_assert,
    ComplexRewrite.patch_assert.
  unfold Machine.run.
  destruct o; cbn -[Z.rem wrap string_of_Z Z.eqb];
  unfold Machine.bind, Machine.read, Machine.ret, Machine.lift, Machine.emit,
    Machine.enter, Machine.fail;
  cbn -[Z.rem wrap string_of_Z Z.eqb];
  change (2 =? 0) with false; cbn -[Z.rem wrap string_of_Z Z.eqb];
  rewrite rem_2_is_zero;
  destruct (Z.even (g 5)); reflexivity.
Qed.

(** C1, as stated, fails: with [call(n) = n + 7] (the function of the post)
    and [n = 5], the assertion rewritten by the run-time version does not
    enter [call] exactly once. *)
Lemma single_evaluation_counterexample :
  calls_of "call" (env_of [("n", 5)]) (only_call (fun n => n + 7))
           (runtime_assert call_cond)
  <> Some 1%nat.
Proof. vm_compute. discriminate. Qed.

(** What each rewrite puts in the failure branch. *)
Lemma runtime_assert_eq (c : tree) :
  runtime_assert c = Some (Cond c build_empty_stmt (diag c)).
Proof. reflexivity. Qed.

Lemma complex_assert_eq (c : tree) :
  complex_assert c = Some (Cond c build_empty_stmt (complex_failure_branch c)).
Proof.
  unfold complex_assert, ComplexRewrite.patch_assert, complex_failure_branch,
    complex_format, complex_args. cbn [COND_EXPR_COND].
  destruct (ComplexRewrite.create_expression_repr c []) as [fmt v].
  cbn [vec_safe_insert firstn skipn app set_COND_EXPR_ELSE fst snd].
  now rewrite build_string_literal_strlen.
Qed.

(** C1, amended.  When the assertion passes, the rewritten assertion
    produces exactly the events of one evaluation of its condition and
    leaves the state that evaluation leaves, under both rewrites: nothing
    is evaluated again.  When it fails, the run is the evaluation of the
    condition followed by the printing code, started in the state the
    condition left; and the printing code evaluates operands of the
    condition once more, there being no memoizing wrapper in these
    sources: the code of a leaf evaluates the leaf, the code of a logical
    AND evaluates its left operand as its test, the code of a logical OR
    evaluates the whole OR as its test, and the one [printf] of the
    one-printf rewrite evaluates every leaf.  This holds for every
    condition, whatever the user functions do to the state and in whatever
    order arguments are evaluated.  For
    [call(n) % 2 == 0 && n - 100 == 150] with [n = 5] and a function
    [call] that computes its result from its argument, [call] is entered
    twice under the one-printf rewrite, and under the run-time rewrite
    twice when [call(5)] is even and three times when it is odd. *)
Theorem operands_evaluated_again_on_failure
  (state : Type) (m : Machine.machine state) (c : tree)
  (st st1 : state) (v : Z) (tr : trace) :
  Machine.eval m c st = Some (v, st1, tr) ->
  (v <> 0 ->
   Machine.run_opt m (runtime_assert c) st = Some (st1, tr) /\
   Machine.run_opt m (complex_assert c) st = Some (st1, tr)) /\
  (v = 0 ->
   Machine.run_opt m (runtime_assert c) st
   = Machine.prefix tr (Machine.run m (diag c) st1) /\
   Machine.run_opt m (complex_assert c) st
   = Machine.prefix tr (Machine.run m (complex_failure_branch c) st1)) /\
  (forall e st',
     get_expr_op_repr e = None ->
     Machine.run m (diag e) st' =
     match Machine.eval m e st' with
     | None => None
     | Some (x, st2, t) => Some (st2, t ++ [EvOut (string_of_Z x)])
     end) /\
  (forall bc l r st',
     is_and bc = true ->
     Machine.run m (diag (Binary bc l r)) st' =
     match Machine.eval m l st' with
     | None => None
     | Some (x, st2, t) =>
         Machine.prefix t
           (if x =? 0 then Machine.run m (diag l) st2
            else Machine.andthen
                   (Machine.andthen (Machine.writes "(...) && (" st2)
                                    (Machine.run m (diag r)))
                   (Machine.writes ")"))
     end) /\
  (forall bc l r st',
     is_or bc = true ->
     Machine.run m (diag (Binary bc l r)) st' =
     match Machine.eval m (Binary bc l r) st' with
     | None => None
     | Some (x, st2, t) =>
         Machine.prefix t
           (if x =? 0
            then Machine.andthen
                   (Machine.andthen
                      (Machine.andthen
                         (Machine.andthen (Machine.writes "(" st2)
                                          (Machine.run m (diag l)))
                         (Machine.writes ") || ("))
                      (Machine.run m (diag r)))
                   (Machine.writes ")")
            else Some (st2, []))
     end) /\
  (forall st',
     Machine.run m (complex_failure_branch c) st' =
     match Machine.eval_args m (leaves c) st' with
     | None => None
     | Some (vs, st2, t) =>
         match format_printf (complex_format c) vs with
         | None => None
         | Some s => Some (st2, t ++ [EvOut s])
         end
     end) /\
  (forall (g : Z -> Z) (o : Machine.arg_order),
     Machine.calls_of (Machine.stateless (env_of [("n", 5)]) (only_call g) o)
                      "call" (complex_assert call_cond) tt
     = Some 2%nat /\
     Machine.calls_of (Machine.stateless (env_of [("n", 5)]) (only_call g) o)
                      "call" (runtime_assert call_cond) tt
     = Some (if Z.even (g 5) then 2%nat else 3%nat)).
Proof.
  intros He. rewrite runtime_assert_eq, complex_assert_eq.
  cbn [Machine.run_opt]. rewrite !machine_run_Cond, He.
  split; [|split; [|split; [|split; [|split; [|split]]]]].
  - intros Hv. apply Z.eqb_neq in Hv. rewrite Hv.
    rewrite machine_run_build_empty_stmt. simpl. now rewrite app_nil_r.
  - intros ->. now split.
  - intros e st' H. now apply machine_run_diag_leaf.
  - intros bc l r st' H. now apply machine_run_diag_and.
  - intros bc l r st' H. now apply machine_run_diag_or.
  - intros st'. unfold complex_failure_branch, complex_args.
    rewrite machine_run_printf_call, create_expression_repr_args.
    reflexivity.
  - intros g o. split;
      [apply machine_complex_call_count | apply machine_runtime_call_count].
Qed.

Lemma operands_evaluated_again_on_failure_witness :
  Machine.eval
    (Machine.stateless (env_of [("n", 5)]) (only_call (fun n => n + 7))
                       Machine.RightToLeft)
    call_cond tt
  = Some (0, tt, [EvCall "call" [5]])
  /\ Machine.run_opt
       (Machine.stateless (env_of [("n", 5)]) (only_call (fun n => n + 7))
                          Machine.RightToLeft)
       (runtime_assert call_cond) tt
     = Some (tt, [EvCall "call" [5]; EvCall "call" [5]; EvOut "(...) && (";
                  EvOut "5"; EvOut " - "; EvOut "100"; EvOut " == ";
                  EvOut "150"; EvOut ")"]).
Proof.
  split; [reflexivity|].
  destruct (operands_evaluated_again_on_failure unit
              (Machine.stateless (env_of [("n", 5)]) (only_call (fun n => n + 7))
                                 Machine.RightToLeft)
              call_cond tt tt 0 [EvCall "call" [5]] eq_refl)
    as (_ & Hfail & _).
  destruct (Hfail eq_refl) as [Hr _]. rewrite Hr. reflexivity.
Defined.

(* ================================================================= *)
(** ** Parentheses *)

Lemma paren_text_binary (c : binary_code) (op : string) (l r : tree)
      (vals : list Z) :
  glyph c = Some op ->
  paren_text (Binary c l r) vals =
  match paren_text l vals with
  | Some (L, vals1) =>
      match paren_text r vals1 with
      | Some (R, vals2) =>
          Some (("(" ++ L ++ ") " ++ op ++ " (" ++ R ++ ")")%string, vals2)
      | None => None
      end
  | None => None
  end.
Proof.
  intros Hg. destruct c; try discriminate; injection Hg as <-; reflexivity.
Qed.

Lemma paren_text_leaf (e : tree) (vals : list Z) :
  get_expr_op_repr e = None ->
  paren_text e vals =
  match vals with v :: rest => Some (string_of_Z v, rest) | [] => None end.
Proof.
  destruct e; try reflexivity. destruct c; try discriminate; reflexivity.
Qed.

(** [printf] of the unbounded format writes the parenthesized text. *)
Lemma format_printf_full_repr (e : tree) :
  forall k vals,
    format_printf (full_repr e ++ k)%string vals =
    match paren_text e vals with
    | Some (T, rest) => option_map (append T) (format_printf k rest)
    | None => None
    end.
Proof.
  induction e as [z | s | dc name | uc a _ | bc l IHl r IHr
                  | ci _ a _ b _ | fn _ args0 | body _ | stmts];
    intros k vals; try (destruct vals; reflexivity).
  destruct (glyph bc) as [op|] eqn:Eg.
  - rewrite (full_repr_binary bc op), (paren_text_binary bc op) by assumption.
    rewrite !append_assoc. simpl. rewrite IHl.
    destruct (paren_text l vals) as [[TL v1]|]; [|reflexivity].
    destruct bc; try discriminate; injection Eg as <-; simpl;
      rewrite IHr;
      (destruct (paren_text r v1) as [[TR v2]|]; [|reflexivity]);
      simpl; (destruct (format_printf k v2) as [out|]; [|reflexivity]);
      simpl; rewrite !append_assoc; simpl; rewrite !append_assoc; reflexivity.
  - rewrite full_repr_leaf, paren_text_leaf
      by (rewrite get_expr_op_repr_glyph; assumption).
    destruct vals; reflexivity.
Qed.

(** C6, as stated, fails: for [n == 42] with [n = 5] the run-time rewrite
    prints "5 == 42", and the operands are not in parentheses. *)
Lemma operands_parenthesized_counterexample :
  ~ wraps_operands (runtime_render (env_of [("n", 5)]) no_functions)
                   EQ_EXPR (var "n") (Cst 42).
Proof.
  intros (op & L & R & Hg & HL & HR & H).
  vm_compute in Hg, HL, HR, H.
  injection Hg as <-. injection HL as <-. injection HR as <-.
  discriminate H.
Qed.

(** C6, amended.  Under the one-printf rewrite ([create_expression_repr])
    the message is the fully parenthesized text of the condition: every
    operand of an operator of the table stands in parentheses and the
    leaves are replaced by their values in order, whenever the format fits
    the 1024-byte buffer.  Under the run-time rewrite
    ([make_conditional_expr_repr]) the operands of a non-logical operator
    of the table are written bare on both sides of the glyph; parentheses
    are written by the logical operators only. *)
Theorem parentheses_depend_on_rewrite
  venv fenv (e : tree) (c : binary_code) (op : string) (l r : tree) :
  glyph c = Some op -> is_and c = false -> is_or c = false ->
  (forall vals,
     (String.length (full_repr e) <= 1023)%nat ->
     format_printf (complex_format e) vals = option_map fst (paren_text e vals))
  /\ wraps_operands (complex_render (env_of [("n", 5)]) no_functions)
                    EQ_EXPR (var "n") (Cst 42)
  /\ run venv fenv (diag (Binary c l r)) =
     then_ (run venv fenv (diag l))
           (then_ (writes (" " ++ op ++ " ")%string) (run venv fenv (diag r))).
Proof.
  intros Hg Ha Ho. split; [|split].
  - intros vals Hfit.
    unfold complex_format. rewrite create_expression_repr_fits by assumption.
    rewrite <- (append_empty_r (full_repr e)), format_printf_full_repr.
    destruct (paren_text e vals) as [[T rest]|]; [|reflexivity].
    simpl. now rewrite append_empty_r.
  - exists "=="%string, "5"%string, "42"%string. repeat split; reflexivity.
  - now apply run_diag_binary.
Qed.

Lemma parentheses_depend_on_rewrite_witness :
  (glyph EQ_EXPR = Some "=="%string /\ is_and EQ_EXPR = false /\ is_or EQ_EXPR = false)
  /\ run (env_of [("n", 5)]) no_functions (diag (Binary EQ_EXPR (var "n") (Cst 42)))
     = Some [EvOut "5"; EvOut " == "; EvOut "42"].
Proof.
  split; [repeat split; reflexivity|].
  destruct (parentheses_depend_on_rewrite (env_of [("n", 5)]) no_functions
              (Cst 0) EQ_EXPR "=="%string (var "n") (Cst 42)
              eq_refl eq_refl eq_refl) as (_ & _ & H).
  rewrite H. reflexivity.
Defined.

(* ================================================================= *)
(** ** The matcher and the traversal *)

Lemma is_assert_fail_cond_expr_shape (s : tree) :
  is_assert_fail_cond_expr s = true <-> assert_shaped s.
Proof.
  split.
  - destruct s as [| | | | |c t e| | |]; try discriminate.
    destruct t as [| | |uc t0| | | | |]; try discriminate.
    destruct uc; try discriminate.
    destruct e as [| | | | | |fn args| |]; try discriminate.
    destruct fn as [| | |uc d| | | | |]; try discriminate.
    destruct uc; try discriminate.
    destruct d as [| |dc name| | | | | |]; try discriminate.
    destruct dc; try discriminate.
    unfold is_assert_fail_cond_expr. cbn -[String.eqb]. intros H.
    apply String.eqb_eq in H. subst name. now exists c, t0, args.
  - intros (c & t & args & ->). reflexivity.
Qed.

Section TraversalLemmas.

Variable patch_assert : tree -> option tree.

Local Abbreviation iterate := (Matcher.iterate_function_body patch_assert).
Local Abbreviation stmts := (Matcher.iterate_stmts patch_assert).

Lemma iterate_StmtList (l : list tree) :
  iterate (StmtList l) = option_map StmtList (stmts l).
Proof. reflexivity. Qed.

Lemma iterate_Bind_StmtList (l : list tree) :
  iterate (Bind (StmtList l)) =
  option_map (fun l' => Bind (StmtList l')) (stmts l).
Proof. reflexivity. Qed.

(** The body of a bind block that is not a list is patched exactly when
    the matcher accepts it; the two [gcc_assert]s then hold. *)
Lemma iterate_Bind_body (body : tree) :
  TREE_CODE body <> STATEMENT_LIST ->
  iterate (Bind body) =
  if is_assert_fail_cond_expr body
  then option_map Bind (patch_assert body)
  else Some (Bind body).
Proof.
  intros Hn. destruct (is_assert_fail_cond_expr body) eqn:E.
  - apply is_assert_fail_cond_expr_shape in E as Hs.
    destruct Hs as (c & t & args & ->). reflexivity.
  - destruct body; simpl; try rewrite E; try reflexivity.
    now contradiction Hn.
Qed.

Lemma stmts_app (l1 l2 l1' l2' : list tree) :
  stmts l1 = Some l1' -> stmts l2 = Some l2' ->
  stmts (l1 ++ l2) = Some (l1' ++ l2').
Proof.
  revert l1'. induction l1 as [|s l1 IH]; intros l1' H1 H2; simpl in *.
  - now injection H1 as <-.
  - destruct (if code_is (TREE_CODE s) BIND_EXPR then iterate s else Some s)
      as [s'|]; [|discriminate].
    destruct (stmts l1) as [r1|]; [|discriminate].
    injection H1 as <-. now rewrite (IH r1 eq_refl H2).
Qed.

(** Statements of a list that are not bind blocks are not touched. *)
Lemma stmts_skips_non_bind (l l' : list tree) :
  stmts l = Some l' ->
  Forall2 (fun s s' => TREE_CODE s <> BIND_EXPR -> s' = s) l l'.
Proof.
  revert l'. induction l as [|s l IH]; intros l' H; simpl in H.
  - injection H as <-. constructor.
  - destruct (code_is (TREE_CODE s) BIND_EXPR) eqn:E.
    + destruct (iterate s) as [s'|]; [|discriminate].
      destruct (stmts l) as [r|]; [|discriminate].
      injection H as <-. constructor; [|now apply IH].
      intros Hn. unfold code_is in E.
      destruct (tree_code_eq_dec (TREE_CODE s) BIND_EXPR); congruence.
    + destruct (stmts l) as [r|]; [|discriminate].
      injection H as <-. constructor; [reflexivity | now apply IH].
Qed.

Lemma stmts_Forall2 (l : list tree) :
  Forall (fun s => forall s', iterate s = Some s' ->
                              only_failure_branches_differ s s') l ->
  forall l', stmts l = Some l' -> Forall2 only_failure_branches_differ l l'.
Proof.
  induction 1 as [|s l Hs _ IH]; intros l' H; simpl in H.
  - injection H as <-. constructor.
  - destruct (code_is (TREE_CODE s) BIND_EXPR).
    + destruct (iterate s) as [s'|] eqn:Es; [|discriminate].
      destruct (stmts l) as [r|]; [|discriminate].
      injection H as <-. constructor; [now apply Hs | now apply IH].
    + destruct (stmts l) as [r|]; [|discriminate].
      injection H as <-. constructor; [apply ofb_same | now apply IH].
Qed.

Lemma ofb_list_inv (l l' : list tree) :
  only_failure_branches_differ (StmtList l) (StmtList l') ->
  Forall2 only_failure_branches_differ l l'.
Proof.
  intros H. inversion H; subst; [|assumption].
  clear H. induction l'; constructor; [apply ofb_same | assumption].
Qed.

(** Whatever [patch_assert] keeps of a conditional but its failure
    branch, the traversal keeps of the whole tree. *)
Lemma iterate_frame :
  (forall c t e s', patch_assert (Cond c t e) = Some s' ->
                    exists e', s' = Cond c t e') ->
  forall t t', iterate t = Some t' -> only_failure_branches_differ t t'.
Proof.
  intros Hframe t.
  induction t as [z | s | dc name | uc a _ | bc a b _ _ | c a b _ _ _
                  | fn args _ _ | body IH | l IH] using tree_nested_ind;
    intros t' H; try discriminate.
  - destruct (tree_code_eq_dec (TREE_CODE body) STATEMENT_LIST) as [E|E].
    + destruct body as [| | | | | | | |l]; try discriminate.
      rewrite iterate_Bind_StmtList in H.
      destruct (stmts l) as [l'|] eqn:Hl; [|discriminate].
      injection H as <-. apply ofb_bind. apply ofb_list_inv, IH.
      rewrite iterate_StmtList, Hl. reflexivity.
    + rewrite iterate_Bind_body in H by assumption.
      destruct (is_assert_fail_cond_expr body) eqn:Ea.
      * destruct (patch_assert body) as [s'|] eqn:Hp; [|discriminate].
        injection H as <-.
        apply is_assert_fail_cond_expr_shape in Ea as Hs.
        destruct Hs as (c & t & args & ->).
        destruct (Hframe _ _ _ _ Hp) as [e' ->]. now apply ofb_patched.
      * injection H as <-. apply ofb_same.
  - rewrite iterate_StmtList in H.
    destruct (stmts l) as [l'|] eqn:Hl; [|discriminate].
    injection H as <-. apply ofb_list. now apply stmts_Forall2.
Qed.

End TraversalLemmas.

Section VisitLemmas.

Variable patch_assert : tree -> option tree.

Local Abbreviation iterate := (Matcher.iterate_function_body patch_assert).
Local Abbreviation stmts := (Matcher.iterate_stmts patch_assert).

(** A conditional that makes the traversal fail: the matcher accepts it
    and [patch_assert] fails on it. *)
Local Abbreviation fails_on := (fun s : tree =>
  is_assert_fail_cond_expr s = true /\ patch_assert s = None).

Lemma stmts_cons (s : tree) (l : list tree) :
  stmts (s :: l) =
  match (if code_is (TREE_CODE s) BIND_EXPR then iterate s else Some s) with
  | Some s' => option_map (cons s') (stmts l)
  | None => None
  end.
Proof. reflexivity. Qed.

(** The loop over a list goes through the whole list: it fails as soon as
    one part fails, and otherwise returns the parts in order. *)
Lemma stmts_app_eq (l1 l2 : list tree) :
  stmts (l1 ++ l2) =
  match stmts l1, stmts l2 with
  | Some l1', Some l2' => Some (l1' ++ l2')
  | _, _ => None
  end.
Proof.
  induction l1 as [|s l1 IH]; simpl.
  - now destruct (stmts l2).
  - destruct (if code_is (TREE_CODE s) BIND_EXPR then iterate s else Some s)
      as [s'|]; [|reflexivity].
    rewrite IH. destruct (stmts l1) as [r1|]; [|reflexivity].
    now destruct (stmts l2).
Qed.

(** Every statement of a list that is a bind block goes through the
    traversal, every other statement is kept. *)
Lemma stmts_each (l l' : list tree) :
  stmts l = Some l' ->
  Forall2 (fun s s' => if code_is (TREE_CODE s) BIND_EXPR
                       then iterate s = Some s' else s' = s) l l'.
Proof.
  revert l'. induction l as [|s l IH]; intros l' H; simpl in H.
  - injection H as <-. constructor.
  - destruct (code_is (TREE_CODE s) BIND_EXPR) eqn:E.
    + destruct (iterate s) as [s'|] eqn:Es; [|discriminate].
      destruct (stmts l) as [r|]; [|discriminate].
      injection H as <-. constructor; [now rewrite E | now apply IH].
    + destruct (stmts l) as [r|]; [|discriminate].
      injection H as <-. constructor; [now rewrite E | now apply IH].
Qed.

Lemma visited_bodies_StmtList (l : list tree) :
  visited_bodies (StmtList l) = visited_in_stmts l.
Proof. reflexivity. Qed.

Lemma visited_bodies_Bind_StmtList (l : list tree) :
  visited_bodies (Bind (StmtList l)) = visited_in_stmts l.
Proof. reflexivity. Qed.

Lemma visited_bodies_Bind (body : tree) :
  TREE_CODE body <> STATEMENT_LIST -> visited_bodies (Bind body) = [body].
Proof. intros H. destruct body; try reflexivity. now contradiction H. Qed.

Lemma stmts_fails (l : list tree) :
  Forall (fun s => TREE_CODE s = BIND_EXPR ->
                   (iterate s = None <->
                    exists b, In b (visited_bodies s) /\ fails_on b)) l ->
  (stmts l = None <-> exists b, In b (visited_in_stmts l) /\ fails_on b).
Proof.
  induction 1 as [|s l Hs _ IH]; simpl.
  - split; [discriminate | intros (b & [] & _)].
  - unfold code_is.
    destruct (tree_code_eq_dec (TREE_CODE s) BIND_EXPR) as [E|E].
    + specialize (Hs E). destruct (iterate s) as [s'|].
      * destruct (stmts l) as [r|]; simpl.
        -- split; [discriminate|]. intros (b & Hin & Hb).
           apply in_app_or in Hin. destruct Hin as [Hin|Hin].
           ++ assert (X : Some s' = None) by (apply Hs; now exists b).
              discriminate.
           ++ assert (X : Some r = None) by (apply IH; now exists b).
              discriminate.
        -- split; [|reflexivity]. intros _.
           destruct (proj1 IH eq_refl) as (b & Hin & Hb).
           exists b. split; [apply in_or_app; now right | exact Hb].
      * split; [|reflexivity]. intros _.
        destruct (proj1 Hs eq_refl) as (b & Hin & Hb).
        exists b. split; [apply in_or_app; now left | exact Hb].
    + simpl. destruct (stmts l) as [r|]; simpl.
      * split; [discriminate|]. intros (b & Hin & Hb).
        assert (X : Some r = None) by (apply IH; now exists b). discriminate.
      * split; [|reflexivity]. intros _. now apply IH.
Qed.

(** The traversal fails in two cases only: it is given a tree that is
    neither a bind block nor a statement list, or [patch_assert] fails on
    the body of a block it visits and the matcher accepts. *)
Lemma iterate_fails (t : tree) :
  iterate t = None <->
  (TREE_CODE t <> BIND_EXPR /\ TREE_CODE t <> STATEMENT_LIST) \/
  exists b, In b (visited_bodies t) /\ fails_on b.
Proof.
  induction t as [z | s | dc name | uc a _ | bc a b _ _ | c a b _ _ _
                  | fn args _ _ | body IH | l IH] using tree_nested_ind;
    try (split; [intros _; left; split; discriminate | reflexivity]).
  - destruct (tree_code_eq_dec (TREE_CODE body) STATEMENT_LIST) as [E|E].
    + destruct body as [| | | | | | | |l]; try discriminate.
      rewrite iterate_Bind_StmtList, visited_bodies_Bind_StmtList.
      rewrite iterate_StmtList, visited_bodies_StmtList in IH.
      destruct (stmts l) as [l'|]; simpl in *.
      * split; [discriminate|]. intros [[Hb _] | Hex]; [now contradiction Hb|].
        assert (X : Some (StmtList l') = None) by (apply IH; now right).
        discriminate.
      * split; [|reflexivity]. intros _. right.
        destruct (proj1 IH eq_refl) as [[_ Hl] | Hex];
          [now contradiction Hl | exact Hex].
    + rewrite iterate_Bind_body, visited_bodies_Bind by assumption.
      destruct (is_assert_fail_cond_expr body) eqn:Ea.
      * destruct (patch_assert body) as [s'|] eqn:Hp; simpl.
        -- split; [discriminate|].
           intros [[Hb _] | (b & [<- | []] & _ & Hn)];
             [now contradiction Hb | congruence].
        -- split; [|reflexivity]. intros _. right. exists body.
           split; [now left | now split].
      * split; [discriminate|].
        intros [[Hb _] | (b & [<- | []] & Hm & _)];
          [now contradiction Hb | congruence].
  - rewrite iterate_StmtList, visited_bodies_StmtList.
    assert (Hl : stmts l = None <->
                 exists b, In b (visited_in_stmts l) /\ fails_on b).
    { apply stmts_fails. eapply Forall_impl; [|exact IH].
      intros s Hs E. rewrite Hs. split.
      - intros [[Hb _] | Hex]; [now contradiction Hb | exact Hex].
      - intros Hex. now right. }
    destruct (stmts l) as [l'|]; simpl.
    + split; [discriminate|]. intros [[_ Hb] | Hex]; [now contradiction Hb|].
      assert (X : Some l' = None) by now apply Hl. discriminate.
    + split; [|reflexivity]. intros _. right. now apply Hl.
Qed.

End VisitLemmas.



(* ================================================================= *)
(** ** What a rewrite replaces *)

Lemma runtime_patch_frame (c t e s' : tree) :
  RuntimeRewrite.patch_assert (Cond c t e) = Some s' -> exists e', s' = Cond c t e'.
Proof. intros H. injection H as <-. now eexists. Qed.

Lemma complex_patch_frame (c t e s' : tree) :
  ComplexRewrite.patch_assert (Cond c t e) = Some s' -> exists e', s' = Cond c t e'.
Proof.
  unfold ComplexRewrite.patch_assert. cbn [COND_EXPR_COND].
  destruct (ComplexRewrite.create_expression_repr c []) as [fmt v].
  intros H. injection H as <-. now eexists.
Qed.

Lemma basic_patch_frame (c t e s' : tree) :
  BasicRewrite.patch_assert (Cond c t e) = Some s' -> exists e', s' = Cond c t e'.
Proof.
  unfold BasicRewrite.patch_assert. cbn [COND_EXPR_COND].
  destruct (TREE_OPERAND c 0), (TREE_OPERAND c 1); try discriminate.
  intros H. injection H as <-. now eexists.
Qed.

(** C9.  Whichever rewrite is used, the tree the traversal returns differs
    from the tree it was given only in the failure branch of the matched
    conditionals: [patch_assert] returns the conditional with the same
    condition and the same success branch, and bind blocks and statement
    lists are rebuilt from the same statements in the same order. *)
Theorem only_failure_branch_replaced (t t' : tree) :
  RuntimeRewrite.iterate_function_body t = Some t' \/
  BasicRewrite.iterate_function_body t = Some t' \/
  ComplexRewrite.iterate_function_body t = Some t' ->
  only_failure_branches_differ t t' /\
  (forall c th el,
     RuntimeRewrite.patch_assert (Cond c th el) = Some (Cond c th (diag c))) /\
  (forall c th el s',
     BasicRewrite.patch_assert (Cond c th el) = Some s' ->
     exists l r,
       TREE_OPERAND c 0 = Some l /\ TREE_OPERAND c 1 = Some r /\
       s' = Cond c th
              (build_call_expr the_printf
                 [Unary ADDR_EXPR (Str ("%d == %d" ++ BasicRewrite.newline)%string); l; r])).
Proof.
  intros H. split; [|split].
  - destruct H as [H | [H | H]].
    + exact (iterate_frame _ runtime_patch_frame t t' H).
    + exact (iterate_frame _ basic_patch_frame t t' H).
    + exact (iterate_frame _ complex_patch_frame t t' H).
  - reflexivity.
  - intros c th el s'. unfold BasicRewrite.patch_assert. cbn [COND_EXPR_COND].
    destruct (TREE_OPERAND c 0) as [l|], (TREE_OPERAND c 1) as [r|];
      try discriminate.
    intros E. injection E as <-. now exists l, r.
Qed.

Lemma only_failure_branch_replaced_witness :
  only_failure_branches_differ
    (Bind (StmtList [assert_stmt x_or_y; abort_stmt x_and_y]))
    (Bind (StmtList
       [Bind (Cond x_or_y build_empty_stmt (diag x_or_y)); abort_stmt x_and_y])).
Proof.
  apply (only_failure_branch_replaced
           (Bind (StmtList [assert_stmt x_or_y; abort_stmt x_and_y]))).
  left. reflexivity.
Defined.

(* ================================================================= *)
(** ** Which statements are rewritten *)

Lemma append_to_statement_list_code (t l : tree) :
  TREE_CODE (append_to_statement_list t l) = STATEMENT_LIST.
Proof. destruct l, t; reflexivity. Qed.

(** The printing code is a conditional or a statement list, never a call. *)
Lemma diag_not_call (c : tree) : TREE_CODE (diag c) <> CALL_EXPR.
Proof.
  destruct c as [| | | |bc l r| | | |]; try (unfold diag; simpl; discriminate).
  destruct bc; unfold diag; simpl;
    try rewrite append_to_statement_list_code; discriminate.
Qed.




(* ================================================================= *)
(** ** The operator table and the leaves *)

(** C8, as stated, fails for the run-time rewrite: the logical operators
    are in the table with the glyphs [&&] and [||], but for
    [x == 1 && y == 2] with [x = 0] the printing code writes "0 == 1",
    in which [&&] does not occur, and for [x == 1 || y == 2] with [x = 1]
    it writes nothing. *)
Lemma table_glyph_counterexample :
  glyph TRUTH_ANDIF_EXPR = Some "&&"%string /\
  runtime_render (env_of [("x", 0)]) no_functions x_and_y = Some "0 == 1"%string /\
  contains "&&" "0 == 1" = false /\
  glyph TRUTH_ORIF_EXPR = Some "||"%string /\
  runtime_render (env_of [("x", 1)]) no_functions x_or_y = Some EmptyString.
Proof. repeat split; reflexivity. Qed.

(** C8, amended.  A node that [get_expr_op_repr] does not know is a leaf
    for both rewrites: one [%d] and the node itself as the one argument,
    never its parts; this is the case of every call, unary node, constant,
    declaration and field access, and of the binary codes outside the
    table.  The ten codes of the table have the glyphs [==], [!=], [&&],
    [||], [+], [-], [*] and [/].  The one-printf rewrite renders every
    node of the table with its glyph between its operands.  The run-time
    rewrite does so for the codes of the table that are not logical; for
    the logical ones it does not consult the table: a logical AND renders
    its left operand alone when that operand is false and "(...) && ("
    right ")" when it is true, a logical OR renders "(" left ") || ("
    right ")" when it is false and nothing when it is true. *)
Theorem unlisted_kinds_are_leaves venv fenv (e : tree) (args : list tree) :
  get_expr_op_repr e = None ->
  (ComplexRewrite.create_expression_repr e args = ("%d"%string, args ++ [e]) /\
   diag e = StmtList [RuntimeRewrite.make_printf the_printf "%d" (Some [e])] /\
   run venv fenv (diag e) =
     match eval venv fenv e with
     | None => None
     | Some (v, tr) => Some (tr ++ [EvOut (string_of_Z v)])
     end) /\
  ((forall fn a, get_expr_op_repr (Call fn a) = None) /\
   (forall c a, get_expr_op_repr (Unary c a) = None) /\
   (forall a b, get_expr_op_repr (Binary COMPONENT_REF a b) = None) /\
   (forall z, get_expr_op_repr (Cst z) = None) /\
   (forall c x, get_expr_op_repr (Decl c x) = None)) /\
  (map glyph [EQ_EXPR; NE_EXPR; TRUTH_AND_EXPR; TRUTH_ANDIF_EXPR;
              TRUTH_OR_EXPR; TRUTH_ORIF_EXPR;
              PLUS_EXPR; MINUS_EXPR; MULT_EXPR; TRUNC_DIV_EXPR]
   = map Some ["=="; "!="; "&&"; "&&"; "||"; "||"; "+"; "-"; "*"; "/"]%string /\
   map glyph [LT_EXPR; LE_EXPR; GT_EXPR; GE_EXPR; TRUNC_MOD_EXPR; COMPONENT_REF]
   = [None; None; None; None; None; None]) /\
  (forall c op l r a,
     glyph c = Some op ->
     fst (ComplexRewrite.create_expression_repr (Binary c l r) a) =
       snprintf 1024
         ("(" ++ fst (ComplexRewrite.create_expression_repr l a) ++ ") " ++ op
          ++ " ("
          ++ fst (ComplexRewrite.create_expression_repr r
                    (snd (ComplexRewrite.create_expression_repr l a)))
          ++ ")")%string) /\
  (forall c op l r,
     glyph c = Some op -> is_and c = false -> is_or c = false ->
     run venv fenv (diag (Binary c l r)) =
       then_ (run venv fenv (diag l))
             (then_ (writes (" " ++ op ++ " ")%string) (run venv fenv (diag r)))) /\
  (forall c l r,
     is_and c = true ->
     glyph c = Some "&&"%string /\
     run venv fenv (diag (Binary c l r)) =
       match eval venv fenv l with
       | None => None
       | Some (v, tr) =>
           then_ (Some tr)
             (if v =? 0 then run venv fenv (diag l)
              else then_ (writes "(...) && (")
                     (then_ (run venv fenv (diag r)) (writes ")")))
       end) /\
  (forall c l r,
     is_or c = true ->
     glyph c = Some "||"%string /\
     run venv fenv (diag (Binary c l r)) =
       match eval venv fenv (Binary c l r) with
       | None => None
       | Some (v, tr) =>
           then_ (Some tr)
             (if v =? 0
              then then_ (writes "(")
                     (then_ (run venv fenv (diag l))
                        (then_ (writes ") || (")
                           (then_ (run venv fenv (diag r)) (writes ")"))))
              else Some [])
       end).
Proof.
  intros H. split; [|split; [|split; [|split; [|split; [|split]]]]].
  - split; [now apply create_expression_repr_leaf|].
    split; [now apply diag_leaf | now apply run_diag_leaf].
  - repeat split; reflexivity.
  - split; reflexivity.
  - intros c op l r a Hg.
    rewrite (create_expression_repr_binary c op) by assumption.
    destruct (ComplexRewrite.create_expression_repr l a) as [L a1].
    cbn [fst snd].
    now destruct (ComplexRewrite.create_expression_repr r a1) as [R a2].
  - intros c op l r Hg Ha Ho. now apply run_diag_binary.
  - intros c l r Ha. split; [now destruct c | now apply run_diag_and].
  - intros c l r Ho. split; [now destruct c | now apply run_diag_or].
Qed.

Lemma unlisted_kinds_are_leaves_witness :
  get_expr_op_repr (call_fn "call" [var "n"]) = None /\
  run (env_of [("n", 5)]) (only_call (fun n => n + 7))
      (diag (call_fn "call" [var "n"]))
  = Some [EvCall "call" [5]; EvOut "12"].
Proof.
  split; [reflexivity|].
  destruct (unlisted_kinds_are_leaves (env_of [("n", 5)])
              (only_call (fun n => n + 7)) (call_fn "call" [var "n"]) []
              eq_refl) as ((_ & _ & H) & _).
  rewrite H. reflexivity.
Defined.

(* ================================================================= *)
(** * Further properties of the snippets *)

(** ** The buffers *)

Lemma length_strn_take (n : nat) (s : string) :
  String.length (strn_take n s) = Nat.min n (String.length s).
Proof.
  revert n; induction s as [|x s IH]; intros [|n]; simpl; try reflexivity.
  now rewrite IH.
Qed.

Lemma strn_take_append (n : nat) (a b : string) :
  strn_take n (a ++ b)%string
  = (strn_take n a ++ strn_take (n - String.length a) b)%string.
Proof.
  revert n; induction a as [|x a IH]; intros n; simpl.
  - now rewrite Nat.sub_0_r; destruct n.
  - destruct n as [|n]; simpl; [reflexivity | now rewrite IH].
Qed.

Lemma strn_take_strn_take (n m : nat) (s : string) :
  strn_take n (strn_take m s) = strn_take (Nat.min n m) s.
Proof.
  revert n m; induction s as [|x s IH]; intros [|n] [|m]; simpl; try reflexivity.
  now rewrite IH.
Qed.

Lemma strn_take_0 (s : string) : strn_take 0 s = EmptyString.
Proof. now destruct s. Qed.

(** Cutting an operand first does not change the cut of the whole. *)
Lemma strn_take_inner (n m : nat) (p a b : string) :
  (n <= m)%nat ->
  strn_take n (p ++ strn_take m a ++ b)%string = strn_take n (p ++ a ++ b)%string.
Proof.
  intros Hnm. rewrite !(strn_take_append n p). f_equal.
  set (k := (n - String.length p)%nat). assert (Hk : (k <= m)%nat) by (unfold k; lia).
  rewrite !(strn_take_append k), strn_take_strn_take, length_strn_take.
  replace (Nat.min k m) with k by lia.
  destruct (Nat.le_gt_cases (String.length a) m) as [Hl|Hl].
  - now replace (Nat.min m (String.length a)) with (String.length a) by lia.
  - replace (k - Nat.min m (String.length a))%nat with 0%nat by lia.
    replace (k - String.length a)%nat with 0%nat by lia. reflexivity.
Qed.

(** The format [create_expression_repr] returns is the first 1023
    characters of the unbounded format. *)
Lemma create_expression_repr_prefix (e : tree) :
  forall args,
    fst (ComplexRewrite.create_expression_repr e args)
    = strn_take 1023 (full_repr e).
Proof.
  induction e as [z | s | dc name | uc a _ | bc l IHl r IHr
                  | ci _ a _ b _ | fn _ args0 | body _ | stmts];
    intros args; try reflexivity.
  destruct (glyph bc) as [op|] eqn:Eg.
  - rewrite (create_expression_repr_binary bc op) by assumption.
    rewrite (full_repr_binary bc op) by assumption.
    specialize (IHl args).
    destruct (ComplexRewrite.create_expression_repr l args) as [L a1].
    cbn [fst] in IHl. subst L.
    specialize (IHr a1).
    destruct (ComplexRewrite.create_expression_repr r a1) as [R a2].
    cbn [fst] in IHr. subst R.
    unfold snprintf. cbn [fst].
    change (1024 - 1)%nat with 1023%nat.
    rewrite (strn_take_inner 1023 1023 "(") by lia.
    rewrite <- !append_assoc.
    rewrite (append_assoc _ (strn_take 1023 (full_repr r)) ")").
    rewrite (strn_take_inner 1023 1023 _ (full_repr r) ")") by lia.
    now rewrite !append_assoc.
  - rewrite create_expression_repr_leaf, full_repr_leaf
      by (rewrite get_expr_op_repr_glyph; assumption).
    reflexivity.
Qed.

(** X1.  Whatever the condition and the arguments pushed so far, the format
    that [create_expression_repr] returns is the unbounded format cut after
    its first 1023 characters: it never exceeds the 1024-byte buffer with
    its terminator, and cutting the operands' formats first loses nothing
    that the cut of the whole would have kept. *)
Theorem format_is_cut_at_1023 (e : tree) (args : list tree) :
  fst (ComplexRewrite.create_expression_repr e args) = strn_take 1023 (full_repr e)
  /\ (String.length (fst (ComplexRewrite.create_expression_repr e args)) <= 1023)%nat.
Proof.
  split; [apply create_expression_repr_prefix|].
  rewrite create_expression_repr_prefix, length_strn_take. lia.
Qed.

(** X2.  The 64-byte buffer of the run-time rewrite always holds the
    operator text: for every glyph of the table [snprintf] returns
    [" op "] whole, at most four characters, and the [printf] built from it
    writes exactly that text. *)
Theorem operator_format_fits venv fenv (c : binary_code) (op : string) :
  glyph c = Some op ->
  snprintf 64 (" " ++ op ++ " ")%string = (" " ++ op ++ " ")%string /\
  (String.length (" " ++ op ++ " ")%string <= 4)%nat /\
  run venv fenv
      (RuntimeRewrite.make_printf the_printf
         (snprintf 64 (" " ++ op ++ " ")%string) None)
  = writes (" " ++ op ++ " ")%string.
Proof.
  intros Hg.
  destruct c; try discriminate; injection Hg as <-;
    (split; [reflexivity | split; [simpl; lia | reflexivity]]).
Qed.

Lemma operator_format_fits_witness :
  glyph TRUTH_ORIF_EXPR = Some "||"%string /\
  snprintf 64 " || " = " || "%string.
Proof.
  split; [reflexivity|].
  apply (operator_format_fits (env_of []) no_functions TRUTH_ORIF_EXPR "||" eq_refl).
Defined.

(** ** The one-printf rewrite at run time *)

Lemma same_shape_full_repr (e e' : tree) :
  same_shape e e' ->
  full_repr e = full_repr e' /\ length (leaves e) = length (leaves e').
Proof.
  induction 1 as [e e' He He' | c c' op l l' r r' Hc Hc' _ [IHl1 IHl2] _ [IHr1 IHr2]].
  - now rewrite !full_repr_leaf, !leaves_leaf.
  - rewrite (full_repr_binary c op), (full_repr_binary c' op) by assumption.
    rewrite (leaves_binary c op), (leaves_binary c' op) by assumption.
    rewrite !length_app. now rewrite IHl1, IHl2, IHr1, IHr2.
Qed.

(** X3.  The format depends on the skeleton of operators only: two
    conditions whose operators of the table agree node by node get the
    same format, character for character, and as many arguments, whatever
    their leaves are (every leaf is a [%d]). *)
Theorem format_depends_on_shape_only (e e' : tree) :
  same_shape e e' ->
  complex_format e = complex_format e' /\
  length (complex_args e) = length (complex_args e').
Proof.
  intros H. destruct (same_shape_full_repr e e' H) as [Hf Hl].
  unfold complex_format, complex_args.
  rewrite !create_expression_repr_prefix, !create_expression_repr_args, Hf.
  split; [reflexivity | exact Hl].
Qed.

Lemma format_depends_on_shape_only_witness :
  same_shape x_and_y
    (Binary TRUTH_AND_EXPR (Binary EQ_EXPR (call_fn "call" [var "n"]) (Cst 7))
                           (Binary EQ_EXPR (Cst 0) (var "z")))
  /\ complex_format x_and_y
     = complex_format
         (Binary TRUTH_AND_EXPR (Binary EQ_EXPR (call_fn "call" [var "n"]) (Cst 7))
                                (Binary EQ_EXPR (Cst 0) (var "z"))).
Proof.
  assert (H : same_shape x_and_y
    (Binary TRUTH_AND_EXPR (Binary EQ_EXPR (call_fn "call" [var "n"]) (Cst 7))
                           (Binary EQ_EXPR (Cst 0) (var "z")))).
  { apply (ss_binary _ _ "&&"); try reflexivity;
      apply (ss_binary _ _ "=="); try reflexivity;
      apply ss_leaf; reflexivity. }
  split; [exact H|]. apply (format_depends_on_shape_only _ _ H).
Defined.

Section OnePrintfRuns.

Variable venv : string -> option Z.
Variable fenv : string -> option (list Z -> Z).

Local Abbreviation eval := (Semantics.eval venv fenv).
Local Abbreviation run := (Semantics.run venv fenv).
Local Abbreviation eval_list := (Notions.eval_list venv fenv).

(** A call of [printf] evaluates its arguments in order, then writes. *)
Lemma run_printf_call (fmt : string) (args : list tree) :
  run (build_call_expr the_printf (Unary ADDR_EXPR (Str fmt) :: args)) =
  match eval_list args with
  | None => None
  | Some (vs, tr) =>
      match format_printf fmt vs with
      | None => None
      | Some s => Some (tr ++ [EvOut s])
      end
  end.
Proof.
  unfold Semantics.run.
  change (Semantics.eval venv fenv
            (build_call_expr the_printf (Unary ADDR_EXPR (Str fmt) :: args)))
    with (vs <- eval_list args ;;
          s <- lift (format_printf fmt vs) ;;
          _ <- emit (EvOut s) ;;
          ret (Z.of_nat (String.length s))).
  unfold bind. destruct (eval_list args) as [[vs tr]|]; [|reflexivity].
  destruct (format_printf fmt vs) as [s|]; reflexivity.
Qed.

Lemma eval_list_undefined (l : list tree) (a : tree) :
  In a l -> eval a = None -> eval_list l = None.
Proof.
  induction l as [|b l IH]; intros Hin Ha; [contradiction|].
  simpl. destruct Hin as [-> | Hin].
  - now rewrite Ha.
  - rewrite (IH Hin Ha). unfold bind. now destruct (eval b) as [[? ?]|].
Qed.

(** With a value for every leaf the parenthesized text exists. *)
Lemma paren_text_defined (e : tree) :
  forall vals, (length (leaves e) <= length vals)%nat ->
               exists T, paren_text e vals = Some (T, skipn (length (leaves e)) vals).
Proof.
  induction e as [z | s | dc name | uc a _ | bc l IHl r IHr
                  | ci _ a _ b _ | fn _ args0 | body _ | stmts];
    intros vals Hlen;
    try (destruct vals as [|v vals]; [simpl in Hlen; lia | now eexists]).
  destruct (glyph bc) as [op|] eqn:Eg.
  - rewrite (paren_text_binary bc op) by assumption.
    rewrite (leaves_binary bc op) in * by assumption.
    rewrite length_app in *.
    destruct (IHl vals ltac:(lia)) as [TL ->].
    destruct (IHr (skipn (length (leaves l)) vals)) as [TR ->].
    { rewrite length_skipn. lia. }
    rewrite skipn_skipn, (Nat.add_comm (length (leaves r))). now eexists.
  - assert (Hleaf : get_expr_op_repr (Binary bc l r) = None)
      by (rewrite get_expr_op_repr_glyph; assumption).
    rewrite paren_text_leaf by assumption.
    rewrite (leaves_leaf _ Hleaf) in *.
    destruct vals as [|v vals]; [simpl in Hlen; lia | now eexists].
Qed.

End OnePrintfRuns.

(** X4.  The failure branch of the one-printf rewrite evaluates every leaf
    of the condition, also those that the condition itself skips: as soon
    as one leaf is undefined the failure branch is undefined.  For
    [p != 0 && 10 % p == 5] with [p = 0] the condition is defined and the
    failure branch is not. *)
Theorem one_printf_evaluates_every_leaf venv fenv (c leaf : tree) :
  In leaf (leaves c) -> eval venv fenv leaf = None ->
  run venv fenv (complex_failure_branch c) = None /\
  (forall th el,
     ComplexRewrite.patch_assert (Cond c th el)
     = Some (Cond c th (complex_failure_branch c))).
Proof.
  intros Hin Hu. split.
  - unfold complex_failure_branch, complex_args.
    rewrite run_printf_call, create_expression_repr_args. simpl app.
    now rewrite (eval_list_undefined venv fenv _ leaf Hin Hu).
  - intros th el. unfold ComplexRewrite.patch_assert, complex_failure_branch,
      complex_format, complex_args. cbn [COND_EXPR_COND].
    destruct (ComplexRewrite.create_expression_repr c []) as [fmt v].
    cbn [vec_safe_insert firstn skipn app set_COND_EXPR_ELSE fst snd].
    now rewrite build_string_literal_strlen.
Qed.

Lemma one_printf_evaluates_every_leaf_witness :
  (In (Binary TRUNC_MOD_EXPR (Cst 10) (var "p")) (leaves guarded_rem) /\
   eval (env_of [("p", 0)]) no_functions
        (Binary TRUNC_MOD_EXPR (Cst 10) (var "p")) = None) /\
  eval (env_of [("p", 0)]) no_functions guarded_rem = Some (0, []) /\
  run (env_of [("p", 0)]) no_functions (complex_failure_branch guarded_rem) = None.
Proof.
  assert (Hin : In (Binary TRUNC_MOD_EXPR (Cst 10) (var "p")) (leaves guarded_rem))
    by (simpl; tauto).
  split; [split; [exact Hin | reflexivity]|]. split; [reflexivity|].
  apply (one_printf_evaluates_every_leaf (env_of [("p", 0)]) no_functions
           guarded_rem _ Hin eq_refl).
Defined.

(** X5.  When the format fits the buffer, the failure branch of the
    one-printf rewrite evaluates the leaves of the condition once each, in
    the order in which the compiler evaluates arguments, and then writes
    one text: the condition with every operand of a table operator in
    parentheses and every leaf replaced by its value, the values standing
    in source order whatever the order of evaluation was.  It is defined
    exactly when the evaluation of the leaves is. *)
Theorem one_printf_prints_all_leaves
  (state : Type) (m : Machine.machine state) (c : tree) (st : state) :
  (String.length (full_repr c) <= 1023)%nat ->
  Machine.run m (complex_failure_branch c) st =
    match Machine.eval_args m (leaves c) st with
    | None => None
    | Some (vs, st', tr) =>
        match paren_text c vs with
        | None => None
        | Some (T, _) => Some (st', tr ++ [EvOut T])
        end
    end
  /\ (Machine.eval_args m (leaves c) st <> None <->
      Machine.run m (complex_failure_branch c) st <> None).
Proof.
  intros Hfit.
  assert (Hrun : Machine.run m (complex_failure_branch c) st =
    match Machine.eval_args m (leaves c) st with
    | None => None
    | Some (vs, st', tr) =>
        match paren_text c vs with
        | None => None
        | Some (T, _) => Some (st', tr ++ [EvOut T])
        end
    end).
  { unfold complex_failure_branch, complex_args, complex_format.
    rewrite machine_run_printf_call, create_expression_repr_args.
    rewrite create_expression_repr_fits by assumption. simpl app.
    destruct (Machine.eval_args m (leaves c) st) as [[[vs st'] tr]|]; [|reflexivity].
    rewrite <- (append_empty_r (full_repr c)), format_printf_full_repr.
    destruct (paren_text c vs) as [[T rest]|]; [|reflexivity].
    simpl. now rewrite append_empty_r. }
  split; [exact Hrun|]. rewrite Hrun. split.
  - intros Hd.
    destruct (Machine.eval_args m (leaves c) st) as [[[vs st'] tr]|] eqn:El;
      [|contradiction].
    destruct (paren_text_defined c vs) as [T ->]; [|discriminate].
    rewrite (machine_eval_args_length state m _ _ _ _ _ El). lia.
  - intros Hd. now destruct (Machine.eval_args m (leaves c) st).
Qed.

Lemma one_printf_prints_all_leaves_witness :
  (String.length
     (full_repr (Binary EQ_EXPR (call_fn "call" [Cst 1]) (call_fn "call" [Cst 2])))
   <= 1023)%nat /\
  Machine.run
    (Machine.stateless (env_of []) (only_call (fun n => n + 7))
                       Machine.RightToLeft)
    (complex_failure_branch
       (Binary EQ_EXPR (call_fn "call" [Cst 1]) (call_fn "call" [Cst 2]))) tt
  = Some (tt, [EvCall "call" [2]; EvCall "call" [1]; EvOut "(8) == (9)"]) /\
  Machine.run
    (Machine.stateless (env_of []) (only_call (fun n => n + 7))
                       Machine.LeftToRight)
    (complex_failure_branch
       (Binary EQ_EXPR (call_fn "call" [Cst 1]) (call_fn "call" [Cst 2]))) tt
  = Some (tt, [EvCall "call" [1]; EvCall "call" [2]; EvOut "(8) == (9)"]).
Proof.
  assert (H : (String.length
     (full_repr (Binary EQ_EXPR (call_fn "call" [Cst 1]) (call_fn "call" [Cst 2])))
   <= 1023)%nat)
    by (vm_compute; lia).
  split; [exact H|]. split.
  - destruct (one_printf_prints_all_leaves unit
                (Machine.stateless (env_of []) (only_call (fun n => n + 7))
                                   Machine.RightToLeft)
                (Binary EQ_EXPR (call_fn "call" [Cst 1]) (call_fn "call" [Cst 2]))
                tt H) as [Hr _].
    rewrite Hr. reflexivity.
  - destruct (one_printf_prints_all_leaves unit
                (Machine.stateless (env_of []) (only_call (fun n => n + 7))
                                   Machine.LeftToRight)
                (Binary EQ_EXPR (call_fn "call" [Cst 1]) (call_fn "call" [Cst 2]))
                tt H) as [Hr _].
    rewrite Hr. reflexivity.
Defined.

(** ** The first rewrite *)

(** X6.  The first rewrite ([basic_rewrite.c]) takes the first two operands
    of the condition, whatever its operator, and prints their values on
    both sides of a fixed [==], the first operand on the left, followed by
    a newline.  The operands are evaluated once more for that, as the two
    arguments of the call: the first then the second where arguments are
    evaluated from left to right, the second then the first, from the
    state the second leaves, where they are evaluated from right to
    left. *)
Theorem basic_rewrite_prints_two_operands
  (state : Type) (m : Machine.machine state) (c th el l r : tree) (st : state) :
  TREE_OPERAND c 0 = Some l -> TREE_OPERAND c 1 = Some r ->
  BasicRewrite.patch_assert (Cond c th el)
  = Some (Cond c th (basic_failure_branch l r)) /\
  Machine.run m (basic_failure_branch l r) st =
    match Machine.order m with
    | Machine.LeftToRight =>
        match Machine.eval m l st with
        | None => None
        | Some (x, s1, t1) =>
            match Machine.eval m r s1 with
            | None => None
            | Some (y, s2, t2) =>
                Some (s2, (t1 ++ t2) ++
                  [EvOut (string_of_Z x ++ " == " ++ string_of_Z y
                          ++ BasicRewrite.newline)%string])
            end
        end
    | Machine.RightToLeft =>
        match Machine.eval m r st with
        | None => None
        | Some (y, s1, t2) =>
            match Machine.eval m l s1 with
            | None => None
            | Some (x, s2, t1) =>
                Some (s2, (t2 ++ t1) ++
                  [EvOut (string_of_Z x ++ " == " ++ string_of_Z y
                          ++ BasicRewrite.newline)%string])
            end
        end
    end.
Proof.
  intros Hl Hr. split.
  - unfold BasicRewrite.patch_assert. cbn [COND_EXPR_COND]. rewrite Hl, Hr.
    reflexivity.
  - unfold basic_failure_branch.
    rewrite machine_run_printf_call, machine_eval_args_pair.
    destruct (Machine.order m).
    + destruct (Machine.eval m l st) as [[[x s1] t1]|]; [|reflexivity].
      now destruct (Machine.eval m r s1) as [[[y s2] t2]|].
    + destruct (Machine.eval m r st) as [[[y s1] t2]|]; [|reflexivity].
      now destruct (Machine.eval m l s1) as [[[x s2] t1]|].
Qed.

Lemma basic_rewrite_prints_two_operands_witness :
  Machine.run (Machine.flipping (Some 7) Machine.RightToLeft)
              (basic_failure_branch (call_fn "flip" []) (call_fn "flip" [])) 0%nat
  = Some (2%nat, [EvCall "flip" []; EvCall "flip" [];
                  EvOut ("1 == 0" ++ BasicRewrite.newline)%string])
  /\ BasicRewrite.patch_assert
       (Cond (Binary NE_EXPR (call_fn "flip" []) (call_fn "flip" []))
             build_empty_stmt assert_fail_call)
     = Some (Cond (Binary NE_EXPR (call_fn "flip" []) (call_fn "flip" []))
                  build_empty_stmt
                  (basic_failure_branch (call_fn "flip" []) (call_fn "flip" []))).
Proof.
  destruct (basic_rewrite_prints_two_operands nat
              (Machine.flipping (Some 7) Machine.RightToLeft)
              (Binary NE_EXPR (call_fn "flip" []) (call_fn "flip" []))
              build_empty_stmt assert_fail_call
              (call_fn "flip" []) (call_fn "flip" []) 0%nat eq_refl eq_refl)
    as [Hp Hr].
  split; [|exact Hp]. rewrite Hr. reflexivity.
Defined.

(** ** The pass over a function *)

Section PassLemmas.

Variable patch_assert : tree -> option tree.

Local Abbreviation iterate := (Matcher.iterate_function_body patch_assert).
Local Abbreviation stmts := (Matcher.iterate_stmts patch_assert).

Hypothesis patch_frame :
  forall c t e s', patch_assert (Cond c t e) = Some s' -> exists e', s' = Cond c t e'.

Lemma iterate_preserves_code (t t' : tree) :
  iterate t = Some t' -> TREE_CODE t' = TREE_CODE t.
Proof.
  destruct t as [| | | | | | |body|l]; try discriminate.
  - destruct (tree_code_eq_dec (TREE_CODE body) STATEMENT_LIST) as [E|E].
    + destruct body as [| | | | | | | |l]; try discriminate.
      rewrite iterate_Bind_StmtList.
      destruct (stmts l); [|discriminate]. now intros H; injection H as <-.
    + rewrite iterate_Bind_body by assumption.
      destruct (is_assert_fail_cond_expr body).
      * destruct (patch_assert body); [|discriminate].
        now intros H; injection H as <-.
      * now intros H; injection H as <-.
  - rewrite iterate_StmtList.
    destruct (stmts l); [|discriminate]. now intros H; injection H as <-.
Qed.

(** What [patch_assert] returns is no longer matched. *)
Hypothesis patch_rejected :
  forall c t e e',
    is_assert_fail_cond_expr (Cond c t e) = true ->
    patch_assert (Cond c t e) = Some (Cond c t e') ->
    is_assert_fail_cond_expr (Cond c t e') = false.

Lemma stmts_idempotent (l : list tree) :
  Forall (fun s => forall s', iterate s = Some s' -> iterate s' = Some s') l ->
  forall l', stmts l = Some l' -> stmts l' = Some l'.
Proof.
  induction 1 as [|s l Hs _ IH]; intros l' H; simpl in H.
  - now injection H as <-.
  - destruct (code_is (TREE_CODE s) BIND_EXPR) eqn:Ec.
    + destruct (iterate s) as [s'|] eqn:Es; [|discriminate].
      destruct (stmts l) as [r|]; [|discriminate].
      injection H as <-. simpl.
      rewrite (iterate_preserves_code _ _ Es), Ec, (Hs _ eq_refl), (IH r eq_refl).
      reflexivity.
    + destruct (stmts l) as [r|]; [|discriminate].
      injection H as <-. simpl. now rewrite Ec, (IH r eq_refl).
Qed.

Lemma iterate_idempotent (t : tree) :
  forall t', iterate t = Some t' -> iterate t' = Some t'.
Proof.
  induction t as [z | s | dc name | uc a _ | bc a b _ _ | c a b _ _ _
                  | fn args _ _ | body IH | l IH] using tree_nested_ind;
    intros t' H; try discriminate.
  - destruct (tree_code_eq_dec (TREE_CODE body) STATEMENT_LIST) as [E|E].
    + destruct body as [| | | | | | | |l]; try discriminate.
      rewrite iterate_Bind_StmtList in H.
      destruct (stmts l) as [l'|] eqn:Hl; [|discriminate].
      injection H as <-.
      specialize (IH (StmtList l')). rewrite !iterate_StmtList, Hl in IH.
      specialize (IH eq_refl). rewrite iterate_Bind_StmtList.
      destruct (stmts l') as [l''|]; [|discriminate].
      now injection IH as ->.
    + rewrite iterate_Bind_body in H by assumption.
      destruct (is_assert_fail_cond_expr body) eqn:Ea.
      * destruct (patch_assert body) as [s'|] eqn:Hp; [|discriminate].
        injection H as <-.
        apply is_assert_fail_cond_expr_shape in Ea as Hs.
        destruct Hs as (c & t & args & ->).
        destruct (patch_frame _ _ _ _ Hp) as [e' ->].
        rewrite iterate_Bind_body by discriminate.
        now rewrite (patch_rejected _ _ _ _ Ea Hp).
      * injection H as <-. rewrite iterate_Bind_body by assumption.
        now rewrite Ea.
  - rewrite iterate_StmtList in H.
    destruct (stmts l) as [l'|] eqn:Hl; [|discriminate].
    injection H as <-. rewrite iterate_StmtList.
    now rewrite (stmts_idempotent l IH l' Hl).
Qed.

End PassLemmas.

Lemma not_call_rejected (c t e : tree) :
  TREE_CODE e <> CALL_EXPR -> is_assert_fail_cond_expr (Cond c t e) = false.
Proof.
  intros H. unfold is_assert_fail_cond_expr. cbn -[String.eqb].
  destruct (code_is (TREE_CODE t) NOP_EXPR); [|reflexivity].
  destruct e; try reflexivity. now contradiction H.
Qed.

Lemma printf_call_rejected (c t : tree) (args : list tree) :
  is_assert_fail_cond_expr (Cond c t (build_call_expr the_printf args)) = false.
Proof.
  unfold is_assert_fail_cond_expr. cbn.
  now destruct (code_is (TREE_CODE t) NOP_EXPR).
Qed.

Lemma runtime_patch_rejected (c t e e' : tree) :
  is_assert_fail_cond_expr (Cond c t e) = true ->
  RuntimeRewrite.patch_assert (Cond c t e) = Some (Cond c t e') ->
  is_assert_fail_cond_expr (Cond c t e') = false.
Proof.
  intros _ H. injection H as <-. apply not_call_rejected. apply diag_not_call.
Qed.

Lemma complex_patch_rejected (c t e e' : tree) :
  is_assert_fail_cond_expr (Cond c t e) = true ->
  ComplexRewrite.patch_assert (Cond c t e) = Some (Cond c t e') ->
  is_assert_fail_cond_expr (Cond c t e') = false.
Proof.
  intros _. unfold ComplexRewrite.patch_assert. cbn [COND_EXPR_COND].
  destruct (ComplexRewrite.create_expression_repr c []) as [fmt v].
  intros H. injection H as <-. apply printf_call_rejected.
Qed.

Lemma basic_patch_rejected (c t e e' : tree) :
  is_assert_fail_cond_expr (Cond c t e) = true ->
  BasicRewrite.patch_assert (Cond c t e) = Some (Cond c t e') ->
  is_assert_fail_cond_expr (Cond c t e') = false.
Proof.
  intros _. unfold BasicRewrite.patch_assert. cbn [COND_EXPR_COND].
  destruct (TREE_OPERAND c 0), (TREE_OPERAND c 1); try discriminate.
  intros H. injection H as <-. apply printf_call_rejected.
Qed.

(** X7.  The pass is idempotent under each of the three rewrites: what
    [patch_assert] puts in the failure branch is not a call of
    [__assert_fail], so a second run of the callback on the patched
    function matches nothing and returns the tree unchanged. *)
Theorem second_pass_changes_nothing (t saved saved' : tree) :
  (Plugin.pre_genericize_callback RuntimeRewrite.patch_assert t saved = Some saved' ->
   Plugin.pre_genericize_callback RuntimeRewrite.patch_assert t saved' = Some saved') /\
  (Plugin.pre_genericize_callback ComplexRewrite.patch_assert t saved = Some saved' ->
   Plugin.pre_genericize_callback ComplexRewrite.patch_assert t saved' = Some saved') /\
  (Plugin.pre_genericize_callback BasicRewrite.patch_assert t saved = Some saved' ->
   Plugin.pre_genericize_callback BasicRewrite.patch_assert t saved' = Some saved').
Proof.
  unfold Plugin.pre_genericize_callback.
  destruct (code_is (TREE_CODE t) FUNCTION_DECL).
  - split; [|split].
    + apply (iterate_idempotent _ runtime_patch_frame runtime_patch_rejected).
    + apply (iterate_idempotent _ complex_patch_frame complex_patch_rejected).
    + apply (iterate_idempotent _ basic_patch_frame basic_patch_rejected).
  - repeat split; intros H; injection H as <-; reflexivity.
Qed.

Lemma second_pass_changes_nothing_witness :
  Plugin.pre_genericize_callback RuntimeRewrite.patch_assert
    (Decl FUNCTION_DECL "test") (Bind (StmtList [assert_stmt x_and_y]))
  = Some (Bind (StmtList [Bind (Cond x_and_y build_empty_stmt (diag x_and_y))]))
  /\ Plugin.pre_genericize_callback RuntimeRewrite.patch_assert
       (Decl FUNCTION_DECL "test")
       (Bind (StmtList [Bind (Cond x_and_y build_empty_stmt (diag x_and_y))]))
     = Some (Bind (StmtList [Bind (Cond x_and_y build_empty_stmt (diag x_and_y))])).
Proof.
  split; [reflexivity|].
  apply (second_pass_changes_nothing (Decl FUNCTION_DECL "test")
           (Bind (StmtList [assert_stmt x_and_y]))).
  reflexivity.
Defined.



(** ** Runs of the rewritten function *)

Section Preservation.

Variable venv : string -> option Z.
Variable fenv : string -> option (list Z -> Z).

Local Abbreviation eval := (Semantics.eval venv fenv).
Local Abbreviation eval_stmts := (Semantics.eval_stmts venv fenv).

(** [__assert_fail] does not return: a run that reaches it has no result. *)
Hypothesis assert_fail_stops : fenv "__assert_fail" = None.

Lemma eval_assert_fail (args : list tree) :
  eval (Call (Unary ADDR_EXPR (Decl FUNCTION_DECL "__assert_fail")) args) = None.
Proof.
  change (eval (Call (Unary ADDR_EXPR (Decl FUNCTION_DECL "__assert_fail")) args))
    with (vs <- Notions.eval_list venv fenv args ;;
          g <- lift (fenv "__assert_fail") ;;
          _ <- emit (EvCall "__assert_fail" vs) ;;
          ret (g vs)).
  rewrite assert_fail_stops. unfold bind.
  now destruct (Notions.eval_list venv fenv args) as [[? ?]|].
Qed.

Lemma eval_stmts_preserved (l l' : list tree) :
  Forall (fun s => forall s' v tr,
            only_failure_branches_differ s s' ->
            eval s = Some (v, tr) -> eval s' = Some (v, tr)) l ->
  Forall2 only_failure_branches_differ l l' ->
  forall v tr, eval_stmts l = Some (v, tr) -> eval_stmts l' = Some (v, tr).
Proof.
  intros HP HR. revert HP.
  induction HR as [|s s' l l' Hs _ IH]; intros HP v tr H; [exact H|].
  inversion HP as [|? ? Hps Hpl]; subst.
  simpl in *. unfold bind in *.
  destruct (eval s) as [[vs ts]|] eqn:Es; [|discriminate].
  rewrite (Hps s' vs ts Hs eq_refl).
  destruct (eval_stmts l) as [[vl tl]|] eqn:El; [|discriminate].
  now rewrite (IH Hpl vl tl eq_refl).
Qed.

(** A run of the original tree that ends is a run of the patched tree. *)
Lemma eval_preserved (t : tree) :
  forall t' v tr,
    only_failure_branches_differ t t' ->
    eval t = Some (v, tr) -> eval t' = Some (v, tr).
Proof.
  induction t as [z | s | dc name | uc a _ | bc a b _ _ | c a b _ _ _
                  | fn args _ _ | body IH | l IH] using tree_nested_ind;
    intros t' v tr HR H; inversion HR; subst; try assumption.
  - (* a patched assertion: its condition held *)
    match goal with
    | Hm : is_assert_fail_cond_expr _ = true |- _ =>
        apply is_assert_fail_cond_expr_shape in Hm;
        destruct Hm as (c0 & t0 & args & Heq); injection Heq as -> -> ->
    end.
    assert (Hb : forall e,
               eval (Bind (Cond c0 (Unary NOP_EXPR t0) e))
               = (x <- eval c0 ;; if x =? 0 then eval e else eval (Unary NOP_EXPR t0)))
      by reflexivity.
    rewrite Hb in H |- *. unfold bind in *.
    destruct (eval c0) as [[x tc]|]; [|discriminate].
    destruct (x =? 0); [|exact H].
    rewrite eval_assert_fail in H. discriminate.
  - (* a bind block around a statement list *)
    apply (IH (StmtList l') v tr); [now apply ofb_list | exact H].
  - (* a statement list *)
    rewrite eval_StmtList in *. now apply (eval_stmts_preserved l l' IH).
Qed.

End Preservation.

(** X9.  Where [__assert_fail] does not return, every run of a function
    body that ends (so that no assertion in it failed) is, value and
    events alike, a run of the body after the callback, under each of the
    three rewrites: the rewriting only touches what happens after a
    failure. *)
Theorem passing_runs_are_preserved
  venv fenv (t saved saved' : tree) (v : Z) (tr : trace) :
  fenv "__assert_fail"%string = None ->
  Plugin.pre_genericize_callback RuntimeRewrite.patch_assert t saved = Some saved' \/
  Plugin.pre_genericize_callback ComplexRewrite.patch_assert t saved = Some saved' \/
  Plugin.pre_genericize_callback BasicRewrite.patch_assert t saved = Some saved' ->
  eval venv fenv saved = Some (v, tr) ->
  eval venv fenv saved' = Some (v, tr).
Proof.
  intros Hf Hcb He.
  apply (eval_preserved venv fenv Hf saved saved' v tr); [|exact He].
  unfold Plugin.pre_genericize_callback in Hcb.
  destruct (code_is (TREE_CODE t) FUNCTION_DECL).
  - destruct Hcb as [H | [H | H]].
    + exact (iterate_frame _ runtime_patch_frame saved saved' H).
    + exact (iterate_frame _ complex_patch_frame saved saved' H).
    + exact (iterate_frame _ basic_patch_frame saved saved' H).
  - assert (E : saved' = saved) by (destruct Hcb as [H | [H | H]]; now injection H).
    subst. apply ofb_same.
Qed.

Lemma passing_runs_are_preserved_witness :
  eval (env_of [("x", 1); ("y", 2)]) no_functions
       (Bind (StmtList [Bind (Cond x_and_y build_empty_stmt (diag x_and_y))]))
  = Some (0, []).
Proof.
  apply (passing_runs_are_preserved (env_of [("x", 1); ("y", 2)]) no_functions
           (Decl FUNCTION_DECL "test") (Bind (StmtList [assert_stmt x_and_y])));
    [reflexivity | left; reflexivity | reflexivity].
Defined.

(** ** What a failed assertion prints under the run-time rewrite *)

(** X10.  In a chain [((e0 && e1) && ...) && en] whose first conjunct
    comes out false every time it is evaluated, whatever else it does to
    the state, the condition stops after [e0], and the printing code of
    the run-time rewrite renders [e0] alone: it evaluates [e0] once more
    for each of the [n] operators [&&] it descends through, then runs the
    code of [e0], and never evaluates [e1] ... [en]. *)
Theorem failed_first_conjunct_is_retested
  (state : Type) (m : Machine.machine state) (e0 : tree) (rest : list tree)
  (st : state) :
  (forall s, exists s' tr, Machine.eval m e0 s = Some (0, s', tr)) ->
  Machine.eval m (and_chain e0 rest) st = Machine.eval m e0 st /\
  Machine.run m (diag (and_chain e0 rest)) st
  = Machine.andthen (Machine.repeat_eval m (length rest) e0 st)
                    (Machine.run m (diag e0)).
Proof. intros H. now apply machine_and_chain_first_false. Qed.

Lemma failed_first_conjunct_is_retested_witness :
  Machine.run
    (Machine.stateless (env_of []) (only_call (fun _ => 0)) Machine.RightToLeft)
    (diag (and_chain (call_fn "call" [Cst 1]) [var "a"; var "b"])) tt
  = Some (tt, [EvCall "call" [1]; EvCall "call" [1]; EvCall "call" [1]; EvOut "0"]).
Proof.
  destruct (failed_first_conjunct_is_retested unit
              (Machine.stateless (env_of []) (only_call (fun _ => 0))
                                 Machine.RightToLeft)
              (call_fn "call" [Cst 1]) [var "a"; var "b"] tt) as [_ H].
  - intros []. exists tt, [EvCall "call" [1]]. reflexivity.
  - rewrite H. reflexivity.
Defined.



(** X12.  The run-time rewrite writes the operands of a non-logical
    operator of the table without parentheses, so its rendering does not
    tell how such operators nest: [(a op2 b) op1 d] and [a op2 (b op1 d)]
    run the same printing code, event for event. *)
Theorem runtime_rendering_forgets_nesting
  venv fenv (c1 c2 : binary_code) (op1 op2 : string) (a b d : tree) :
  glyph c1 = Some op1 -> is_and c1 = false -> is_or c1 = false ->
  glyph c2 = Some op2 -> is_and c2 = false -> is_or c2 = false ->
  run venv fenv (diag (Binary c1 (Binary c2 a b) d))
  = run venv fenv (diag (Binary c2 a (Binary c1 b d))).
Proof.
  intros G1 A1 O1 G2 A2 O2.
  rewrite (run_diag_binary venv fenv c1 op1 (Binary c2 a b) d A1 O1 G1).
  rewrite (run_diag_binary venv fenv c2 op2 a b A2 O2 G2).
  rewrite (run_diag_binary venv fenv c2 op2 a (Binary c1 b d) A2 O2 G2).
  rewrite (run_diag_binary venv fenv c1 op1 b d A1 O1 G1).
  now rewrite !then_assoc.
Qed.

Lemma runtime_rendering_forgets_nesting_witness :
  runtime_render (env_of [("a", 1); ("b", 2); ("c", 3)]) no_functions
    (Binary MULT_EXPR (Binary PLUS_EXPR (var "a") (var "b")) (var "c"))
  = Some "1 + 2 * 3"%string
  /\ run (env_of [("a", 1); ("b", 2); ("c", 3)]) no_functions
         (diag (Binary MULT_EXPR (Binary PLUS_EXPR (var "a") (var "b")) (var "c")))
     = run (env_of [("a", 1); ("b", 2); ("c", 3)]) no_functions
           (diag (Binary PLUS_EXPR (var "a") (Binary MULT_EXPR (var "b") (var "c")))).
Proof.
  split; [reflexivity|].
  apply (runtime_rendering_forgets_nesting
           (env_of [("a", 1); ("b", 2); ("c", 3)]) no_functions
           MULT_EXPR PLUS_EXPR "*" "+"); reflexivity.
Defined.
